(** * Link validation of [clean_bookmarks.py]

    A shallow embedding of [check_link_validity] (the retry controller around
    [requests.get]) and of the result-collection part of [clean_bookmarks]
    (the thread-pool fan-out and the aggregation of the results), with the
    properties of the validation engine proved about them.

    The network and the thread scheduler are the two things the program does
    not control.  The network is an oracle that answers the n-th call of
    [requests.get] made by a task; the scheduler is the order in which
    [as_completed] hands the futures back. *)

From Stdlib Require Import String Ascii List ZArith Bool Arith Lia Permutation.
Import ListNotations.
Local Open Scope string_scope.
Local Open Scope list_scope.

(** ** Strings: Python's [needle in haystack] *)

Module Str.

(** [s] starts with [p]. *)
Fixpoint startswith (p s : string) : bool :=
  match p, s with
  | EmptyString, _ => true
  | String a p', String b s' => if Ascii.eqb a b then startswith p' s' else false
  | String _ _, EmptyString => false
  end.

(** [contains needle hay] is Python's [needle in hay] on [str]: some position
    of [hay] starts with [needle].  URLs and the keywords searched for are
    ASCII, where the byte string and the code-point string coincide. *)
Fixpoint contains (needle hay : string) : bool :=
  match hay with
  | EmptyString => startswith needle EmptyString
  | String _ rest => startswith needle hay || contains needle rest
  end.

(** [needle] occurs in [hay]: the notion of substring of the statements
    below, independent of how [contains] searches. *)
Definition Substring (needle hay : string) : Prop :=
  exists before after, hay = (before ++ needle ++ after)%string.

End Str.

(** ** Exceptions

    The exception classes the two functions name in their [except] clauses,
    with the class hierarchy of the [requests] library:
    [SSLError] and [ConnectTimeout] derive from [ConnectionError],
    [ConnectTimeout] and [ReadTimeout] from [Timeout], and all of them from
    [RequestException].  [KeyboardInterrupt], [TypeError] and [OtherError]
    (any exception outside [requests]) are unrelated to it. *)

Inductive exc : Type :=
  | RequestException
  | ConnectionError
  | SSLError
  | Timeout
  | ConnectTimeout
  | ReadTimeout
  | TooManyRedirects
  | KeyboardInterrupt
  | TypeError
  | OtherError.

Definition exc_eqb (a b : exc) : bool :=
  match a, b with
  | RequestException, RequestException | ConnectionError, ConnectionError
  | SSLError, SSLError | Timeout, Timeout | ConnectTimeout, ConnectTimeout
  | ReadTimeout, ReadTimeout | TooManyRedirects, TooManyRedirects
  | KeyboardInterrupt, KeyboardInterrupt | TypeError, TypeError
  | OtherError, OtherError => true
  | _, _ => false
  end.

(** The direct base classes of a class. *)
Definition bases (e : exc) : list exc :=
  match e with
  | ConnectionError | Timeout | TooManyRedirects => [RequestException]
  | SSLError => [ConnectionError]
  | ConnectTimeout => [ConnectionError; Timeout]
  | ReadTimeout => [Timeout]
  | RequestException | KeyboardInterrupt | TypeError | OtherError => []
  end.

(** [isinstance e cls]: an exception raised with class [e] is caught by
    [except cls].  The hierarchy is three levels deep. *)
Definition isinstance (e cls : exc) : bool :=
  exc_eqb e cls
  || existsb (fun b => exc_eqb b cls
                       || existsb (fun b' => exc_eqb b' cls) (bases b))
       (bases e).

(** A transport error is what [requests.get] raises for a failed request. *)
Definition transport_error (e : exc) : Prop :=
  isinstance e RequestException = true.

(** A TLS-class transport error. *)
Definition tls_error (e : exc) : Prop :=
  isinstance e SSLError = true.

(** A connection, timeout or generic transport error: any transport error
    that is not of the TLS class. *)
Definition plain_error (e : exc) : Prop :=
  isinstance e RequestException = true /\ isinstance e SSLError = false.

(** ** The effects of one task

    A task logs what it does to the outside world; the answer of the n-th
    [requests.get] of the task comes from the oracle [net]. *)

Inductive event : Type :=
  | EvDisableWarnings            (* urllib3.disable_warnings(...) *)
  | EvGet (url : string)         (* requests.get(url, timeout=10, verify=False, ...) *)
  | EvSleep (seconds : Z).       (* time.sleep(seconds) *)

(** What one call of [requests.get] does: a response with its status code,
    or an exception. *)
Inductive response : Type :=
  | Resp (status_code : Z)
  | Raise (e : exc).

(** The result of running a piece of code: a value or a raised exception. *)
Inductive res (A : Type) : Type :=
  | Val (a : A)
  | Exc (e : exc).
Arguments Val {A} a.
Arguments Exc {A} e.

Definition is_get (ev : event) : bool :=
  match ev with EvGet _ => true | _ => false end.

(** Number of [requests.get] calls in a log. *)
Definition count_gets (log : list event) : nat :=
  length (filter is_get log).

Definition is_sleep (ev : event) : bool :=
  match ev with EvSleep _ => true | _ => false end.

Definition count_sleeps (log : list event) : nat :=
  length (filter is_sleep log).

(** The (url, status_code, is_valid) tuple; [None] is Python's [None]. *)
Definition triple : Type := string * option Z * bool.

Section Task.

(** The answer to the n-th call of [requests.get] of this task (from 0). *)
Variable net : nat -> response.

Definition M (A : Type) : Type := list event -> res A * list event.

Definition ret {A} (a : A) : M A := fun log => (Val a, log).

Definition bind {A B} (m : M A) (k : A -> M B) : M B :=
  fun log =>
    match m log with
    | (Val a, log') => k a log'
    | (Exc e, log') => (Exc e, log')
    end.

Notation "x <- m ;; k" := (bind m (fun x => k))
  (at level 61, m at next level, right associativity).
Notation "m ;;; k" := (bind m (fun _ => k))
  (at level 61, right associativity).

(** [try: body / except ...: handler]: [handler e] is [None] when no
    [except] clause matches the class of [e], which then propagates. *)
Definition try_except {A} (body : M A) (handler : exc -> option (M A)) : M A :=
  fun log =>
    match body log with
    | (Val a, log') => (Val a, log')
    | (Exc e, log') =>
        match handler e with
        | Some h => h log'
        | None => (Exc e, log')
        end
    end.

Definition urllib3_disable_warnings : M unit :=
  fun log => (Val tt, log ++ [EvDisableWarnings]).

(** [requests.get(url, timeout=10, verify=False, allow_redirects=True)],
    returning [response.status_code]. *)
Definition requests_get (url : string) : M Z :=
  fun log =>
    match net (count_gets log) with
    | Resp sc => (Val sc, log ++ [EvGet url])
    | Raise e => (Exc e, log ++ [EvGet url])
    end.

Definition time_sleep (seconds : Z) : M unit :=
  fun log => (Val tt, log ++ [EvSleep seconds]).

(** [for attempt in range(...)] with a body that may [return]: the body
    gives [Some r] when it returns [r] from the function and [None] when it
    falls through to the next iteration.  The loop gives [None] when it ends
    without a [return]. *)
Fixpoint for_range {R} (attempts : list nat) (body : nat -> M (option R))
  : M (option R) :=
  match attempts with
  | [] => ret None
  | attempt :: rest =>
      r <- body attempt ;;
      match r with
      | Some x => ret (Some x)
      | None => for_range rest body
      end
  end.

Definition excluded_keywords : list string :=
  ["github"; "google"; "huggingface"; "docker"; "127.0.0.1"; "localhost"].

Definition max_retries : nat := 5.

(** The [if]/[elif]/[else] on [response.status_code], written out twice in
    the source (lines 62-71 and 78-87). *)
Definition status_result (url : string) (status_code : Z) : triple :=
  if (200 <=? status_code)%Z && (status_code <? 400)%Z then
    (url, Some status_code, true)
  else if (status_code =? 403)%Z then
    (url, Some status_code, true)
  else
    (url, Some status_code, false).

(** The three identical handler bodies (lines 90-93, 96-99 and 102-105). *)
Definition give_up_or_wait (url : string) (attempt : nat) : M (option triple) :=
  if (attempt =? max_retries - 1)%nat then ret (Some (url, None, false))
  else time_sleep 1 ;;; ret None.

(** The body of the retry loop, lines 58-105. *)
Definition attempt_body (url : string) (attempt : nat) : M (option triple) :=
  try_except
    (status_code <- requests_get url ;;
     ret (Some (status_result url status_code)))
    (fun e =>
       if isinstance e SSLError then
         Some (try_except
                 (status_code <- requests_get url ;;
                  ret (Some (status_result url status_code)))
                 (fun e' =>
                    if isinstance e' RequestException then
                      Some (give_up_or_wait url attempt)
                    else None))
       else if isinstance e ConnectionError || isinstance e Timeout then
         Some (give_up_or_wait url attempt)
       else if isinstance e RequestException then
         Some (give_up_or_wait url attempt)
       else None).

(** [check_link_validity(url)], lines 30-105.  The value [None] is Python's
    implicit [return None] at the end of the function body. *)
Definition check_link_validity (url : string) : M (option triple) :=
  if existsb (fun keyword => Str.contains keyword url) excluded_keywords then
    ret (Some (url, Some 200%Z, true))
  else
    urllib3_disable_warnings ;;;
    for_range (seq 0 max_retries) (attempt_body url).

End Task.

Arguments ret {A} a _.
Arguments bind {A B} m k _.

(** The status codes the program accepts as a live link. *)
Definition accepted (status_code : Z) : Prop :=
  (200 <= status_code < 400)%Z \/ status_code = 403%Z.

(** The prober only fails with transport errors. *)
Definition transport_only (net : nat -> response) : Prop :=
  forall n e, net n = Raise e -> transport_error e.

(** The URL contains none of the allowlisted keywords. *)
Definition not_allowlisted (url : string) : Prop :=
  forall keyword, In keyword excluded_keywords -> ~ Str.Substring keyword url.

(** ** The engine: [clean_bookmarks], lines 115-147

    [links] is what [parse_bookmarks] returned.  What the main thread does is
    logged as a list of actions.  The part of the function after the [try]
    statement (the confirmation prompt and the rewriting of the document)
    reads [invalid_links] and is not modelled. *)

Inductive action : Type :=
  | ActTotal (n : nat)                          (* print(f"Total links to check: {len(links)}") *)
  | ActSubmit (url : string)                    (* executor.submit(check_link_validity, link) *)
  | ActProgress (i total : nat) (url : string)  (* print(f"Checking link {i}/{len(links)}: {url}") *)
  | ActInvalid (url : string)                   (* print(f"Invalid link: {url}") *)
  | ActInterrupted.                             (* print("\nProcess interrupted by user. Exiting...") *)

(** A submitted task: the link it was submitted with, what the call of
    [check_link_validity] gave and what it did on the network. *)
Record future : Type := {
  task_url : string;
  task_result : res (option triple);
  task_log : list event
}.

Record state : Type := {
  valid_links : list string;
  invalid_links : list string;
  actions : list action
}.

Definition emit (a : action) (st : state) : state :=
  {| valid_links := valid_links st;
     invalid_links := invalid_links st;
     actions := actions st ++ [a] |}.

Definition append_valid (url : string) (st : state) : state :=
  {| valid_links := valid_links st ++ [url];
     invalid_links := invalid_links st;
     actions := actions st |}.

Definition append_invalid (url : string) (st : state) : state :=
  {| valid_links := valid_links st;
     invalid_links := invalid_links st ++ [url];
     actions := actions st |}.

(** The links that are submitted: [for link in links if "2025" not in link]. *)
Definition dispatched (links : list string) : list string :=
  filter (fun link => negb (Str.contains "2025" link)) links.

(** [executor.submit(check_link_validity, link)] for the j-th task, whose
    calls of [requests.get] are answered by [nets j]. *)
Definition submit (nets : nat -> nat -> response) (j : nat) (link : string)
  : future :=
  let (r, log) := check_link_validity (nets j) link [] in
  {| task_url := link; task_result := r; task_log := log |}.

Definition submit_all (nets : nat -> nat -> response) (links : list string)
  : list future :=
  map (fun jl => submit nets (fst jl) (snd jl))
      (combine (seq 0 (length links)) links).

(** [as_completed(futures)]: the futures in the order in which they
    complete, [sched] listing their positions in [futures]. *)
Definition as_completed (sched : list nat) (futures : list future)
  : list future :=
  flat_map (fun j => match nth_error futures j with
                     | Some f => [f]
                     | None => []
                     end) sched.

(** Where in the body of the collection loop the main thread is when a
    [KeyboardInterrupt] arrives: waiting for the next result (line 132-134),
    before the progress line (136), before the [append] (138-142), or
    between [invalid_links.append] and its [print] (143). *)
Inductive point : Type :=
  | AtResult
  | AtPrint
  | AtAppend
  | AtPrintInvalid.

Definition point_eqb (p q : point) : bool :=
  match p, q with
  | AtResult, AtResult | AtPrint, AtPrint | AtAppend, AtAppend
  | AtPrintInvalid, AtPrintInvalid => true
  | _, _ => false
  end.

(** The interrupt, if any, arrives in iteration [i] (counted from 1 as by
    [enumerate(..., 1)]) at point [p]. *)
Definition interrupted (intr : option (nat * point)) (i : nat) (p : point)
  : bool :=
  match intr with
  | Some (i', p') => (i =? i')%nat && point_eqb p p'
  | None => false
  end.

(** The loop of lines 132-143 over the completed futures.  [future.result()]
    re-raises what the task raised; unpacking a [None] result raises
    [TypeError]. *)
Fixpoint collect (total : nat) (intr : option (nat * point)) (i : nat)
    (completed : list future) (st : state) : res unit * state :=
  match completed with
  | [] => (Val tt, st)
  | future :: rest =>
      if interrupted intr i AtResult then (Exc KeyboardInterrupt, st) else
      match task_result future with
      | Exc e => (Exc e, st)
      | Val None => (Exc TypeError, st)
      | Val (Some (url, status_code, is_valid)) =>
          if interrupted intr i AtPrint then (Exc KeyboardInterrupt, st) else
          let st1 := emit (ActProgress i total url) st in
          if interrupted intr i AtAppend then (Exc KeyboardInterrupt, st1) else
          if (is_valid : bool) then
            collect total intr (S i) rest (append_valid url st1)
          else
            let st2 := append_invalid url st1 in
            if interrupted intr i AtPrintInvalid then
              (Exc KeyboardInterrupt, st2)
            else
              collect total intr (S i) rest (emit (ActInvalid url) st2)
      end
  end.

(** How the modelled part of [clean_bookmarks] ends: by the [return] of
    line 147, or by going on to line 149 with the two lists. *)
Inductive flow : Type :=
  | Returned
  | GoesOn.

Definition clean_bookmarks (nets : nat -> nat -> response) (sched : list nat)
    (intr : option (nat * point)) (links : list string) : res flow * state :=
  let st0 := {| valid_links := []; invalid_links := [];
                actions := [ActTotal (length links)] |} in
  let futures := submit_all nets (dispatched links) in
  let st1 := fold_left (fun st f => emit (ActSubmit (task_url f)) st)
                       futures st0 in
  match collect (length links) intr 1 (as_completed sched futures) st1 with
  | (Val _, st) => (Val GoesOn, st)
  | (Exc e, st) =>
      if isinstance e KeyboardInterrupt then (Val Returned, emit ActInterrupted st)
      else (Exc e, st)
  end.

(** ** Describing what the prober answers

    [answers net from rs]: the calls number [from], [from + 1], ... of
    [requests.get] are answered by the responses [rs], in this order. *)

Definition answers (net : nat -> response) (from : nat) (rs : list response)
  : Prop :=
  forall j r, nth_error rs j = Some r -> net (from + j) = r.

(** A failed attempt of the retry loop: either its probe raised a
    connection, timeout or generic transport error, or its probe raised a
    TLS-class error and the second probe of the same attempt raised a
    transport error again. *)
Inductive failed_attempt : Type :=
  | PlainFailure (e : exc)
  | TlsFailure (e e' : exc).

Definition failure_ok (f : failed_attempt) : Prop :=
  match f with
  | PlainFailure e => plain_error e
  | TlsFailure e e' => tls_error e /\ transport_error e'
  end.

(** The answers of the network during a failed attempt. *)
Definition failure_calls (f : failed_attempt) : list response :=
  match f with
  | PlainFailure e => [Raise e]
  | TlsFailure e e' => [Raise e; Raise e']
  end.

(** The probes of a failed attempt. *)
Definition failure_gets (url : string) (f : failed_attempt) : list event :=
  map (fun _ => EvGet url) (failure_calls f).

(** The log of failed attempts each followed by the one second of sleep. *)
Definition retried_log (url : string) (fs : list failed_attempt) : list event :=
  flat_map (fun f => failure_gets url f ++ [EvSleep 1%Z]) fs.

(** A returned tuple is consistent: it carries the URL it was asked about
    and it is valid exactly when it has an accepted status code. *)
Definition consistent (url : string) (t : triple) : Prop :=
  let '(u, status_code, is_valid) := t in
  u = url
  /\ (is_valid = true <-> exists sc, status_code = Some sc /\ accepted sc).

(** A task that returned a tuple for the link it was submitted with. *)
Definition returned (f : future) : Prop :=
  exists status_code is_valid,
    task_result f = Val (Some (task_url f, status_code, is_valid)).

(** A task that, if it returned a tuple, returned it for its own link. *)
Definition honest (f : future) : Prop :=
  forall u status_code is_valid,
    task_result f = Val (Some (u, status_code, is_valid)) -> u = task_url f.

(** The two lists of the report partition the dispatched links: every
    dispatched link is in exactly one of them, once, and nothing else is. *)
Definition report_partitions (links : list string) (st : state) : Prop :=
  NoDup (valid_links st)
  /\ NoDup (invalid_links st)
  /\ (forall u, ~ (In u (valid_links st) /\ In u (invalid_links st)))
  /\ (forall u, In u (dispatched links) ->
                In u (valid_links st) \/ In u (invalid_links st))
  /\ length (valid_links st) + length (invalid_links st)
     = length (dispatched links).

(** The link an action of the main thread is about, if any. *)
Definition action_url (a : action) : option string :=
  match a with
  | ActSubmit u | ActProgress _ _ u | ActInvalid u => Some u
  | ActTotal _ | ActInterrupted => None
  end.

(** What the collection loop prints: progress and invalid-link lines about
    the links in [urls]. *)
Definition collect_action (total : nat) (urls : list string) (a : action)
  : Prop :=
  exists u, In u urls /\ (a = ActInvalid u \/ exists i, a = ActProgress i total u).

(** [st'] is [st] after some steps of the collection loop over tasks for
    the links [urls]: the lists and the actions only grow at their end. *)
Definition extends (total : nat) (urls : list string) (st st' : state) : Prop :=
  exists vs ivs acts,
    valid_links st' = valid_links st ++ vs
    /\ invalid_links st' = invalid_links st ++ ivs
    /\ actions st' = actions st ++ acts
    /\ incl vs urls
    /\ incl ivs urls
    /\ Forall (collect_action total urls) acts.

(** The two lists of [st] are initial segments of the two lists of [st']. *)
Definition partial_of (st st' : state) : Prop :=
  (exists vs, valid_links st' = valid_links st ++ vs)
  /\ (exists ivs, invalid_links st' = invalid_links st ++ ivs).

(** ** More ways to describe a task and a run *)

(** What a task logs for [url]: the disabling of the warnings, probes of
    [url] itself and sleeps of one second. *)
Definition own_event (url : string) (ev : event) : Prop :=
  ev = EvDisableWarnings \/ ev = EvGet url \/ ev = EvSleep 1%Z.

(** Two answers of the prober that the [except] clauses cannot tell apart:
    the same status code, the same exception, or two transport errors that
    are both of the TLS class or both not. *)
Definition same_kind (r1 r2 : response) : Prop :=
  match r1, r2 with
  | Resp sc1, Resp sc2 => sc1 = sc2
  | Raise e1, Raise e2 =>
      e1 = e2
      \/ (transport_error e1 /\ transport_error e2
          /\ isinstance e1 SSLError = isinstance e2 SSLError)
  | _, _ => False
  end.

(** The [is_valid] flag of the tuple a task returned. *)
Definition task_valid (f : future) : bool :=
  match task_result f with
  | Val (Some (_, _, is_valid)) => is_valid
  | _ => false
  end.

(** What the collection loop prints for the completed tasks, the first of
    them being number [i]: a progress line for each, followed by an
    invalid-link line when its result is invalid. *)
Fixpoint progress_lines (total i : nat) (completed : list future)
  : list action :=
  match completed with
  | [] => []
  | f :: rest =>
      ActProgress i total (task_url f)
      :: (if task_valid f then [] else [ActInvalid (task_url f)])
      ++ progress_lines total (S i) rest
  end.

Definition is_progress (a : action) : bool :=
  match a with ActProgress _ _ _ => true | _ => false end.

Definition is_invalid_line (a : action) : bool :=
  match a with ActInvalid _ => true | _ => false end.

(** The progress line of the task that completes as number [fst kf]. *)
Definition progress_line (total : nat) (kf : nat * future) : action :=
  ActProgress (fst kf) total (task_url (snd kf)).

(** A task ended as a call of [check_link_validity] can end: with a tuple
    for its own link, or with an exception of the prober [net] that is not
    a transport error. *)
Definition ended_well (nets : nat -> nat -> response) (f : future) : Prop :=
  match task_result f with
  | Val (Some (u, _, _)) => u = task_url f
  | Val None => False
  | Exc e => ~ transport_error e /\ exists j n, nets j n = Raise e
  end.

(** ** The whole of [clean_bookmarks] and [parse_bookmarks]

    [str.lower()] on the bytes of the answer.  Python lowercases non-ASCII
    letters too, but no other character than 'Y' is lowercased to 'y', so the
    comparison [user_input.lower() == 'y'] is the same on the bytes. *)

Definition lower_char (c : ascii) : ascii :=
  let n := nat_of_ascii c in
  if (65 <=? n)%nat && (n <=? 90)%nat then ascii_of_nat (n + 32) else c.

Fixpoint lower (s : string) : string :=
  match s with
  | EmptyString => EmptyString
  | String c rest => String (lower_char c) (lower rest)
  end.

(** [s in l] on a list of strings. *)
Definition mem (s : string) (l : list string) : bool :=
  existsb (String.eqb s) l.

Section Document.

(** The document tree of BeautifulSoup is not part of the program: the
    three operations the program uses on it are taken as they are. *)
Variables soup tag : Type.

(** [soup.find_all('a', href=True)] *)
Variable find_all : soup -> list tag.

(** [a_tag['href']], read in the document as it is at that moment. *)
Variable getitem_href : soup -> tag -> res string.

(** [a_tag.decompose()] *)
Variable decompose : tag -> soup -> soup.

(** What the whole function does, in order.  The elapsed time that the
    last line prints is a float and is left out of [OutElapsed]. *)
Inductive output : Type :=
  | OutEngine (a : action)
  | OutPrompt (n : nat)      (* input(f"\nFound {len(invalid_links)} invalid links. ...") *)
  | OutDecompose (a_tag : tag)
  | OutWrite (output_file : string) (doc : soup)   (* file.write(str(soup)) *)
  | OutSaved (output_file : string)  (* print(f"Cleaned bookmarks saved to {output_file}") *)
  | OutNoChanges               (* print("No changes were made.") *)
  | OutNoInvalid               (* print("No invalid links found.") *)
  | OutElapsed.                (* print(f"Script execution time: ...") *)

(** [[a['href'] for a in tags]] *)
Fixpoint hrefs (doc : soup) (tags : list tag) : res (list string) :=
  match tags with
  | [] => Val []
  | a :: rest =>
      match getitem_href doc a with
      | Exc e => Exc e
      | Val href =>
          match hrefs doc rest with
          | Exc e => Exc e
          | Val links => Val (href :: links)
          end
      end
  end.

(** [parse_bookmarks(html_file)], lines 10-28.  [load] is what opening the
    file and [BeautifulSoup(file, 'html.parser')] give: the document, or the
    exception they raise. *)
Definition parse_bookmarks (load : res soup) : res (list string * soup) :=
  match load with
  | Exc e => Exc e
  | Val doc =>
      match hrefs doc (find_all doc) with
      | Exc e => Exc e
      | Val links => Val (links, doc)
      end
  end.

(** The loop of lines 156-159 over the tags found before it starts. *)
Fixpoint remove_invalid (invalid : list string) (tags : list tag)
    (doc : soup) (out : list output) : res unit * soup * list output :=
  match tags with
  | [] => (Val tt, doc, out)
  | a_tag :: rest =>
      match getitem_href doc a_tag with
      | Exc e => (Exc e, doc, out)
      | Val href =>
          if mem href invalid then
            remove_invalid invalid rest (decompose a_tag doc)
                           (out ++ [OutDecompose a_tag])
          else remove_invalid invalid rest doc out
      end
  end.

(** [clean_bookmarks(html_file, output_file)], lines 107-176: the parsing,
    the engine part [clean_bookmarks] above, then the confirmation and the
    rewriting.  [answer] is what [input] gives and [write] what opening and
    writing the output file give (a value or the exception raised). *)
Definition clean_bookmarks_file (nets : nat -> nat -> response)
    (sched : list nat) (intr : option (nat * point)) (load : res soup)
    (answer : res string) (write : res unit) (output_file : string)
  : res unit * list output :=
  match parse_bookmarks load with
  | Exc e => (Exc e, [])
  | Val (links, doc) =>
      match clean_bookmarks nets sched intr links with
      | (Exc e, st) => (Exc e, map OutEngine (actions st))
      | (Val Returned, st) => (Val tt, map OutEngine (actions st))
      | (Val GoesOn, st) =>
          let out := map OutEngine (actions st) in
          match invalid_links st with
          | [] => (Val tt, out ++ [OutNoInvalid; OutElapsed])
          | _ :: _ =>
              let out := out ++ [OutPrompt (length (invalid_links st))] in
              match answer with
              | Exc e => (Exc e, out)
              | Val user_input =>
                  if String.eqb (lower user_input) "y" then
                    match remove_invalid (invalid_links st) (find_all doc)
                            doc out with
                    | (Exc e, _, out) => (Exc e, out)
                    | (Val _, doc', out) =>
                        match write with
                        | Exc e => (Exc e, out)
                        | Val _ =>
                            (Val tt,
                             out ++ [OutWrite output_file doc';
                                     OutSaved output_file; OutElapsed])
                        end
                    end
                  else (Val tt, out ++ [OutNoChanges; OutElapsed])
              end
          end
      end
  end.

End Document.

Arguments hrefs {soup tag} getitem_href doc tags.
Arguments parse_bookmarks {soup tag} find_all getitem_href load.
Arguments remove_invalid {soup tag} getitem_href decompose invalid tags doc out.
Arguments clean_bookmarks_file {soup tag} find_all getitem_href decompose
  nets sched intr load answer write output_file.
Arguments OutEngine {soup tag} a.
Arguments OutPrompt {soup tag} n.
Arguments OutDecompose {soup tag} a_tag.
Arguments OutWrite {soup tag} output_file doc.
Arguments OutSaved {soup tag} output_file.
Arguments OutNoChanges {soup tag}.
Arguments OutNoInvalid {soup tag}.
Arguments OutElapsed {soup tag}.

(** The prompt, a removal or the writing of the output file. *)
Definition touches {soup tag : Type} (o : output soup tag) : Prop :=
  match o with
  | OutPrompt _ | OutDecompose _ | OutWrite _ _ | OutSaved _ => True
  | _ => False
  end.

(** A removal from the document or the writing of the output file. *)
Definition changes {soup tag : Type} (o : output soup tag) : Prop :=
  match o with
  | OutDecompose _ | OutWrite _ _ | OutSaved _ => True
  | _ => False
  end.

(** A document for examples: its anchors in order, each with a number and
    a link; a removed anchor is taken out of the list. *)
Definition anchors_find_all (doc : list (nat * string)) : list (nat * string) :=
  doc.

Definition anchors_href (doc : list (nat * string)) (a : nat * string)
  : res string :=
  Val (snd a).

Definition anchors_decompose (a : nat * string) (doc : list (nat * string))
  : list (nat * string) :=
  filter (fun b => negb (fst b =? fst a)%nat) doc.

(** ** Facts about strings *)

Module StrFacts.
Import Str.

Lemma startswith_spec p s :
  startswith p s = true <-> exists after, s = (p ++ after)%string.
Proof.
  revert s; induction p as [|a p IH]; intros s; simpl.
  - split; [intros _; now exists s | reflexivity].
  - destruct s as [|b s].
    + split; [discriminate | intros [t Ht]; discriminate].
    + destruct (Ascii.eqb a b) eqn:E.
      * apply Ascii.eqb_eq in E; subst b. rewrite IH.
        split; intros [t Ht]; exists t; [now rewrite Ht | now injection Ht].
      * apply Ascii.eqb_neq in E.
        split; [discriminate | intros [t Ht]; injection Ht; intros; congruence].
Qed.

Lemma contains_spec needle hay :
  contains needle hay = true <-> Substring needle hay.
Proof.
  unfold Substring. induction hay as [|c hay IH]; simpl.
  - rewrite startswith_spec. split.
    + intros [t Ht]. now exists EmptyString, t.
    + intros [[|b u] [t Ht]]; simpl in Ht; [now exists t | discriminate].
  - rewrite orb_true_iff, IH.
    rewrite (startswith_spec needle (String c hay)). split.
    + intros [[t Ht] | [u [t Ht]]].
      * now exists EmptyString, t.
      * exists (String c u), t. simpl. now rewrite Ht.
    + intros [[|b u] [t Ht]]; simpl in Ht.
      * left. now exists t.
      * right. injection Ht; intros. now exists u, t.
Qed.

Lemma contains_false needle hay :
  contains needle hay = false <-> ~ Substring needle hay.
Proof.
  rewrite <- contains_spec. destruct (contains needle hay); split;
    congruence.
Qed.

End StrFacts.

(** ** Facts about the exception classes *)

Lemma tls_is_transport e : tls_error e -> transport_error e.
Proof. unfold tls_error, transport_error; destruct e; cbv; congruence. Qed.

Lemma plain_is_transport e : plain_error e -> transport_error e.
Proof. now intros [H _]. Qed.

Lemma transport_tls_or_plain e :
  transport_error e -> tls_error e \/ plain_error e.
Proof.
  unfold transport_error, tls_error, plain_error.
  destruct (isinstance e SSLError); auto.
Qed.

(** ** The retry loop of one task *)

Lemma count_gets_app l l' : count_gets (l ++ l') = count_gets l + count_gets l'.
Proof. unfold count_gets. now rewrite filter_app, length_app. Qed.

Lemma count_sleeps_app l l' :
  count_sleeps (l ++ l') = count_sleeps l + count_sleeps l'.
Proof. unfold count_sleeps. now rewrite filter_app, length_app. Qed.

Lemma status_result_spec url sc :
  exists is_valid,
    status_result url sc = (url, Some sc, is_valid)
    /\ (is_valid = true <-> accepted sc).
Proof.
  unfold status_result, accepted.
  destruct ((200 <=? sc)%Z && (sc <? 400)%Z) eqn:E.
  - exists true. split; [reflexivity|]. split; [intros _|reflexivity].
    apply andb_true_iff in E. lia.
  - destruct (sc =? 403)%Z eqn:E'.
    + exists true. split; [reflexivity|]. split; [intros _|reflexivity]. lia.
    + exists false. split; [reflexivity|]. split; [discriminate|].
      apply andb_false_iff in E. lia.
Qed.

Lemma status_result_accepted url sc :
  accepted sc -> status_result url sc = (url, Some sc, true).
Proof.
  intros H. destruct (status_result_spec url sc) as [b [-> Hb]].
  now apply Hb in H; subst.
Qed.

Lemma status_result_rejected url sc :
  ~ accepted sc -> status_result url sc = (url, Some sc, false).
Proof.
  intros H. destruct (status_result_spec url sc) as [b [-> Hb]].
  destruct b; [|reflexivity]. exfalso. now apply H, Hb.
Qed.

Lemma allowlist_test_true url keyword :
  In keyword excluded_keywords -> Str.Substring keyword url ->
  existsb (fun keyword => Str.contains keyword url) excluded_keywords = true.
Proof.
  intros Hin Hsub. apply existsb_exists. exists keyword. split; [exact Hin|].
  now apply StrFacts.contains_spec.
Qed.

Lemma allowlist_test_false url :
  not_allowlisted url ->
  existsb (fun keyword => Str.contains keyword url) excluded_keywords = false.
Proof.
  intros H. apply not_true_is_false. intros E.
  apply existsb_exists in E. destruct E as [k [Hin Hk]].
  now apply (H k Hin), StrFacts.contains_spec.
Qed.

Lemma check_link_validity_probes net url log :
  not_allowlisted url ->
  check_link_validity net url log =
  for_range (seq 0 max_retries) (attempt_body net url)
            (log ++ [EvDisableWarnings]).
Proof.
  intros H. unfold check_link_validity. now rewrite (allowlist_test_false url H).
Qed.

Lemma for_range_return {R} (body : nat -> M (option R)) a rest log x log' :
  body a log = (Val (Some x), log') ->
  for_range (a :: rest) body log = (Val (Some x), log').
Proof. intros H. simpl. unfold bind. now rewrite H. Qed.

Lemma for_range_next {R} (body : nat -> M (option R)) a rest log log' :
  body a log = (Val None, log') ->
  for_range (a :: rest) body log = for_range rest body log'.
Proof. intros H. simpl. unfold bind. now rewrite H. Qed.

Lemma for_range_raise {R} (body : nat -> M (option R)) a rest log e log' :
  body a log = (Exc e, log') ->
  for_range (a :: rest) body log = (Exc e, log').
Proof. intros H. simpl. unfold bind. now rewrite H. Qed.

(** One attempt whose probe is answered with a status code. *)
Lemma attempt_status net url attempt log sc :
  net (count_gets log) = Resp sc ->
  attempt_body net url attempt log =
  (Val (Some (status_result url sc)), log ++ [EvGet url]).
Proof.
  intros H. unfold attempt_body, try_except, bind, requests_get.
  now rewrite H.
Qed.

Lemma give_up_last url attempt log :
  attempt = max_retries - 1 ->
  give_up_or_wait url attempt log = (Val (Some (url, None, false)), log).
Proof. intros ->. reflexivity. Qed.

Lemma wait_not_last url attempt log :
  attempt < max_retries - 1 ->
  give_up_or_wait url attempt log = (Val None, log ++ [EvSleep 1%Z]).
Proof.
  intros H. unfold give_up_or_wait.
  destruct (Nat.eqb_spec attempt (max_retries - 1)) as [E|E]; [lia|reflexivity].
Qed.

(** One attempt whose probe raises a connection, timeout or generic error. *)
Lemma attempt_plain net url attempt log e :
  net (count_gets log) = Raise e -> plain_error e ->
  attempt_body net url attempt log =
  give_up_or_wait url attempt (log ++ [EvGet url]).
Proof.
  intros H [Ht Hs]. unfold attempt_body, try_except, bind, requests_get.
  rewrite H, Hs, Ht.
  now destruct (isinstance e ConnectionError || isinstance e Timeout).
Qed.

(** One attempt whose probe raises a TLS-class error and whose second probe
    is answered with a status code. *)
Lemma attempt_tls_status net url attempt log e sc :
  net (count_gets log) = Raise e -> tls_error e ->
  net (S (count_gets log)) = Resp sc ->
  attempt_body net url attempt log =
  (Val (Some (status_result url sc)), log ++ [EvGet url; EvGet url]).
Proof.
  intros H Hs H'. unfold attempt_body, try_except, bind, requests_get.
  rewrite H, Hs, count_gets_app. simpl count_gets.
  rewrite Nat.add_1_r, H', <- app_assoc. reflexivity.
Qed.

(** One attempt whose probe raises a TLS-class error and whose second probe
    raises a transport error. *)
Lemma attempt_tls_fail net url attempt log e e' :
  net (count_gets log) = Raise e -> tls_error e ->
  net (S (count_gets log)) = Raise e' -> transport_error e' ->
  attempt_body net url attempt log =
  give_up_or_wait url attempt (log ++ [EvGet url; EvGet url]).
Proof.
  intros H Hs H' Ht'. unfold attempt_body, try_except, bind, requests_get.
  rewrite H, Hs, count_gets_app. simpl count_gets.
  rewrite Nat.add_1_r, H', Ht', <- app_assoc. reflexivity.
Qed.

Lemma answers_app net from rs rs' :
  answers net from (rs ++ rs') <->
  answers net from rs /\ answers net (from + length rs) rs'.
Proof.
  unfold answers. split.
  - intros H. split; intros j r Hj.
    + apply H. rewrite nth_error_app1; [exact Hj|].
      apply nth_error_Some. congruence.
    + rewrite <- Nat.add_assoc. apply H.
      rewrite nth_error_app2 by lia.
      now replace (length rs + j - length rs) with j by lia.
  - intros [H1 H2] j r Hj. destruct (Nat.lt_ge_cases j (length rs)) as [L|L].
    + apply H1. now rewrite nth_error_app1 in Hj.
    + rewrite nth_error_app2 in Hj by exact L.
      replace (from + j) with (from + length rs + (j - length rs)) by lia.
      now apply H2.
Qed.

Lemma answers_head net from r rs : answers net from (r :: rs) -> net from = r.
Proof. intros H. rewrite <- (Nat.add_0_r from). now apply H. Qed.

Lemma answers_tail net from r rs :
  answers net from (r :: rs) -> answers net (S from) rs.
Proof.
  intros H j r' Hj. replace (S from + j) with (from + S j) by lia. now apply H.
Qed.

(** A failed attempt that is not the last one leaves the loop going, after
    its probes and one second of sleep. *)
Lemma attempt_failure net url attempt log f :
  failure_ok f -> answers net (count_gets log) (failure_calls f) ->
  attempt_body net url attempt log =
  give_up_or_wait url attempt (log ++ failure_gets url f).
Proof.
  destruct f as [e|e e']; simpl; intros Hok Hans.
  - apply attempt_plain with (e := e); [|exact Hok].
    now apply answers_head in Hans.
  - destruct Hok as [Hs Ht].
    apply attempt_tls_fail with (e := e) (e' := e'); try assumption.
    + now apply answers_head in Hans.
    + now apply answers_tail, answers_head in Hans.
Qed.

Lemma count_gets_failure url f :
  count_gets (failure_gets url f) = length (failure_calls f).
Proof. now destruct f. Qed.

(** The loop walks over failed attempts that are not the last one. *)
Lemma skip_failures net url fs : forall attempt log rest,
  Forall failure_ok fs ->
  attempt + length fs <= max_retries - 1 ->
  answers net (count_gets log) (flat_map failure_calls fs) ->
  for_range (seq attempt (length fs) ++ rest) (attempt_body net url) log =
  for_range rest (attempt_body net url) (log ++ retried_log url fs).
Proof.
  induction fs as [|f fs IH]; intros attempt log rest Hok Hlen Hans.
  - simpl. now rewrite app_nil_r.
  - inversion Hok as [|? ? Hf Hfs]; subst. simpl in Hlen, Hans.
    apply answers_app in Hans. destruct Hans as [Hf_ans Hfs_ans].
    cbn [length seq app]. rewrite for_range_next
      with (log' := (log ++ failure_gets url f) ++ [EvSleep 1%Z]).
    + rewrite IH.
      * cbn [retried_log flat_map]. now rewrite <- !app_assoc.
      * exact Hfs.
      * unfold max_retries in *. lia.
      * rewrite !count_gets_app, count_gets_failure. simpl count_gets.
        now rewrite Nat.add_0_r.
    + rewrite (attempt_failure net url attempt log f Hf Hf_ans).
      apply wait_not_last. unfold max_retries in *. lia.
Qed.

Lemma failures_then net url fs log :
  Forall failure_ok fs ->
  length fs <= max_retries - 1 ->
  answers net (count_gets log) (flat_map failure_calls fs) ->
  for_range (seq 0 max_retries) (attempt_body net url) log =
  for_range (seq (length fs) (max_retries - length fs)) (attempt_body net url)
            (log ++ retried_log url fs).
Proof.
  intros Hok Hlen Hans.
  replace max_retries with (length fs + (max_retries - length fs)) at 1
    by (unfold max_retries in *; lia).
  rewrite seq_app. now apply skip_failures.
Qed.

Lemma count_gets_retried url fs :
  count_gets (retried_log url fs) = length (flat_map failure_calls fs).
Proof.
  induction fs as [|f fs IH]; [reflexivity|].
  cbn [retried_log flat_map]. rewrite !count_gets_app, count_gets_failure.
  fold (retried_log url fs). rewrite IH, length_app.
  change (count_gets [EvSleep 1%Z]) with 0. lia.
Qed.

Lemma count_sleeps_retried url fs :
  count_sleeps (retried_log url fs) = length fs.
Proof.
  induction fs as [|f fs IH]; [reflexivity|].
  cbn [retried_log flat_map]. rewrite !count_sleeps_app.
  fold (retried_log url fs). rewrite IH. now destruct f.
Qed.

(** Failed attempts followed by an attempt that gets a status code. *)
Lemma failures_then_status net url fs sc log :
  Forall failure_ok fs ->
  length fs <= max_retries - 1 ->
  answers net (count_gets log) (flat_map failure_calls fs ++ [Resp sc]) ->
  for_range (seq 0 max_retries) (attempt_body net url) log =
  (Val (Some (status_result url sc)),
   log ++ retried_log url fs ++ [EvGet url]).
Proof.
  intros Hok Hlen Hans. apply answers_app in Hans. destruct Hans as [Hfs Hsc].
  rewrite (failures_then net url fs log Hok Hlen Hfs).
  destruct (max_retries - length fs) as [|n] eqn:E;
    [unfold max_retries in *; lia|].
  cbn [seq]. rewrite app_assoc. apply for_range_return, attempt_status.
  apply answers_head in Hsc. rewrite <- Hsc. f_equal.
  now rewrite count_gets_app, count_gets_retried.
Qed.

(** Failed attempts followed by an attempt whose probe raises a TLS-class
    error and whose second probe gets a status code. *)
Lemma failures_then_tls_status net url fs e sc log :
  Forall failure_ok fs ->
  length fs <= max_retries - 1 ->
  tls_error e ->
  answers net (count_gets log)
          (flat_map failure_calls fs ++ [Raise e; Resp sc]) ->
  for_range (seq 0 max_retries) (attempt_body net url) log =
  (Val (Some (status_result url sc)),
   log ++ retried_log url fs ++ [EvGet url; EvGet url]).
Proof.
  intros Hok Hlen He Hans. apply answers_app in Hans.
  destruct Hans as [Hfs Hlast].
  rewrite (failures_then net url fs log Hok Hlen Hfs).
  destruct (max_retries - length fs) as [|n] eqn:E;
    [unfold max_retries in *; lia|].
  cbn [seq]. rewrite app_assoc.
  apply for_range_return, attempt_tls_status with (e := e); [|exact He|].
  - apply answers_head in Hlast. rewrite <- Hlast. f_equal.
    now rewrite count_gets_app, count_gets_retried.
  - apply answers_tail, answers_head in Hlast. rewrite <- Hlast. f_equal.
    now rewrite count_gets_app, count_gets_retried.
Qed.

(** Four failed attempts followed by a fifth one: the loop gives up, without
    sleeping after the last attempt. *)
Lemma failures_exhaust net url fs f log :
  Forall failure_ok fs -> failure_ok f ->
  length fs = max_retries - 1 ->
  answers net (count_gets log) (flat_map failure_calls fs ++ failure_calls f) ->
  for_range (seq 0 max_retries) (attempt_body net url) log =
  (Val (Some (url, None, false)),
   log ++ retried_log url fs ++ failure_gets url f).
Proof.
  intros Hok Hf Hlen Hans. apply answers_app in Hans.
  destruct Hans as [Hfs Hlast].
  rewrite (failures_then net url fs log Hok (Nat.eq_le_incl _ _ Hlen) Hfs).
  rewrite Hlen. cbn [max_retries Nat.sub seq]. rewrite app_assoc.
  apply for_range_return.
  rewrite (attempt_failure net url 4 _ f Hf).
  - now apply give_up_last.
  - now rewrite count_gets_app, count_gets_retried.
Qed.

(** Under a prober that only fails with transport errors an attempt either
    returns a tuple or, when it is not the last one, leaves the loop going. *)
Lemma attempt_total net url attempt log :
  transport_only net ->
  (exists t log', attempt_body net url attempt log = (Val (Some t), log'))
  \/ (attempt <> max_retries - 1
      /\ exists log', attempt_body net url attempt log = (Val None, log')).
Proof.
  intros Hnet.
  assert (Hgive : forall l,
    (exists t log', give_up_or_wait url attempt l = (Val (Some t), log'))
    \/ (attempt <> max_retries - 1
        /\ exists log', give_up_or_wait url attempt l = (Val None, log'))).
  { intros l. unfold give_up_or_wait.
    destruct (Nat.eqb_spec attempt (max_retries - 1)) as [E|E].
    - left. now exists (url, None, false), l.
    - right. split; [exact E|]. now exists (l ++ [EvSleep 1%Z]). }
  destruct (net (count_gets log)) as [sc|e] eqn:E.
  - left. rewrite (attempt_status net url attempt log sc E). eauto.
  - destruct (transport_tls_or_plain e (Hnet _ _ E)) as [Hs|Hp].
    + destruct (net (S (count_gets log))) as [sc|e'] eqn:E'.
      * left. rewrite (attempt_tls_status net url attempt log e sc E Hs E').
        eauto.
      * rewrite (attempt_tls_fail net url attempt log e e' E Hs E'
                   (Hnet _ _ E')). apply Hgive.
    + rewrite (attempt_plain net url attempt log e E Hp). apply Hgive.
Qed.

Lemma loop_total net url :
  transport_only net ->
  forall n attempt log,
    attempt + S n = max_retries ->
    exists t log',
      for_range (seq attempt (S n)) (attempt_body net url) log =
      (Val (Some t), log').
Proof.
  intros Hnet. induction n as [|n IH]; intros attempt log Hsum;
    cbn [seq];
    destruct (attempt_total net url attempt log Hnet)
      as [[t [log' H]] | [Hne [log' H]]].
  - exists t, log'. now apply for_range_return.
  - unfold max_retries in *. lia.
  - exists t, log'. now apply for_range_return.
  - rewrite (for_range_next _ _ _ _ _ H). apply IH. lia.
Qed.

(** Whatever the prober does, a tuple returned by an attempt is consistent. *)
Lemma status_result_consistent url sc : consistent url (status_result url sc).
Proof.
  destruct (status_result_spec url sc) as [b [-> Hb]]. simpl. split; [easy|].
  rewrite Hb. split.
  - intros H. now exists sc.
  - intros [sc' [E H]]. now injection E as <-.
Qed.

Lemma gave_up_consistent url : consistent url (url, None, false).
Proof.
  simpl. split; [easy|]. split; [discriminate|]. now intros [sc [E _]].
Qed.

Lemma attempt_returns net url attempt log t log' :
  attempt_body net url attempt log = (Val (Some t), log') -> consistent url t.
Proof.
  assert (Hgive : forall l,
    give_up_or_wait url attempt l = (Val (Some t), log') -> consistent url t).
  { intros l. unfold give_up_or_wait, bind, time_sleep, ret.
    destruct (attempt =? max_retries - 1)%nat; [|discriminate].
    intros H. injection H as <- _. apply gave_up_consistent. }
  unfold attempt_body, try_except, bind, requests_get, ret.
  destruct (net (count_gets log)) as [sc|e].
  - intros H. injection H as <- _. apply status_result_consistent.
  - destruct (isinstance e SSLError).
    + destruct (net (count_gets (log ++ [EvGet url]))) as [sc|e'].
      * intros H. injection H as <- _. apply status_result_consistent.
      * destruct (isinstance e' RequestException); [apply Hgive|discriminate].
    + destruct (isinstance e ConnectionError || isinstance e Timeout);
        [apply Hgive|].
      destruct (isinstance e RequestException); [apply Hgive|discriminate].
Qed.

Lemma loop_returns net url attempts : forall log t log',
  for_range attempts (attempt_body net url) log = (Val (Some t), log') ->
  consistent url t.
Proof.
  induction attempts as [|a rest IH]; intros log t log'; simpl.
  - discriminate.
  - unfold bind.
    destruct (attempt_body net url a log) as [[[t'|]|e] l] eqn:E.
    + intros H. injection H as <- _. exact (attempt_returns _ _ _ _ _ _ E).
    + apply IH.
    + discriminate.
Qed.

Lemma check_link_validity_consistent net url log t log' :
  check_link_validity net url log = (Val (Some t), log') -> consistent url t.
Proof.
  unfold check_link_validity.
  destruct (existsb _ excluded_keywords).
  - intros H. injection H as <- _. simpl. split; [easy|].
    split; [intros _|easy]. exists 200%Z. split; [easy|]. left. lia.
  - unfold bind, urllib3_disable_warnings. apply loop_returns.
Qed.

Lemma check_link_validity_total net url log :
  transport_only net ->
  exists t log', check_link_validity net url log = (Val (Some t), log').
Proof.
  intros Hnet. unfold check_link_validity.
  destruct (existsb _ excluded_keywords).
  - now exists (url, Some 200%Z, true), log.
  - unfold bind, urllib3_disable_warnings.
    now apply (loop_total net url Hnet 4 0).
Qed.

(** ** Tools to check the hypotheses on concrete inputs *)

Lemma not_allowlisted_by_test url :
  existsb (fun keyword => Str.contains keyword url) excluded_keywords = false ->
  not_allowlisted url.
Proof.
  intros E keyword Hin Hsub.
  now rewrite (allowlist_test_true url keyword Hin Hsub) in E.
Qed.

Lemma answers_nil net from : answers net from [].
Proof. intros [|j] r H; discriminate. Qed.

Lemma answers_cons net from r rs :
  net from = r -> answers net (S from) rs -> answers net from (r :: rs).
Proof.
  intros H Hrs [|j] r' Hj; simpl in Hj.
  - injection Hj as <-. now rewrite Nat.add_0_r.
  - replace (from + S j) with (S from + j) by lia. now apply Hrs.
Qed.

Lemma plain_failures_ok es :
  Forall plain_error es -> Forall failure_ok (map PlainFailure es).
Proof. induction 1; simpl; constructor; assumption. Qed.

Lemma plain_failures_calls es :
  flat_map failure_calls (map PlainFailure es) = map Raise es.
Proof. induction es as [|e es IH]; simpl; [reflexivity|now rewrite IH]. Qed.

Lemma classified url sc (r : res (option triple) * list event) log :
  r = (Val (Some (status_result url sc)), log) ->
  (accepted sc -> r = (Val (Some (url, Some sc, true)), log))
  /\ (~ accepted sc -> r = (Val (Some (url, Some sc, false)), log)).
Proof.
  intros ->. split; intros H.
  - now rewrite status_result_accepted.
  - now rewrite status_result_rejected.
Qed.

(** ** The retry controller: [check_link_validity] *)

(** C1.  For a URL without an allowlisted keyword, when the first probe is
    answered with a status code [sc], the function returns [(url, sc, True)]
    if [200 <= sc < 400] or [sc = 403] and [(url, sc, False)] for any other
    code, and it has called [requests.get] exactly once: the log holds that
    call alone after the disabling of the warnings, and no sleep. *)
Theorem first_status_is_final net url sc :
  not_allowlisted url ->
  net 0 = Resp sc ->
  let log := [EvDisableWarnings; EvGet url] in
  count_gets log = 1
  /\ (accepted sc ->
      check_link_validity net url [] = (Val (Some (url, Some sc, true)), log))
  /\ (~ accepted sc ->
      check_link_validity net url [] = (Val (Some (url, Some sc, false)), log)).
Proof.
  intros Hurl Hnet log. split; [reflexivity|].
  apply classified. rewrite check_link_validity_probes by exact Hurl.
  cbn [max_retries seq]. apply for_range_return.
  now apply (attempt_status net url 0 [EvDisableWarnings] sc).
Qed.

Lemma first_status_is_final_witness :
  check_link_validity (fun _ => Resp 404) "http://example.org/a" [] =
  (Val (Some ("http://example.org/a", Some 404%Z, false)),
   [EvDisableWarnings; EvGet "http://example.org/a"]).
Proof.
  apply (first_status_is_final (fun _ => Resp 404) "http://example.org/a" 404).
  - apply not_allowlisted_by_test. reflexivity.
  - reflexivity.
  - unfold accepted. lia.
Defined.

(** C2.  For a URL without an allowlisted keyword, let [es] be the
    connection, timeout or generic transport errors that the probes of the
    attempts 1 to k-1 raise.  If the probe of attempt k (k <= 5) is answered
    with a status code, the function returns the tuple classified from that
    code after exactly k calls of [requests.get] and k-1 sleeps.  If all five
    attempts raise such an error, the function returns [(url, None, False)]
    after exactly five calls, with a sleep of one second between consecutive
    calls and none after the last. *)
Theorem retries_on_transport_errors net url es :
  not_allowlisted url ->
  Forall plain_error es ->
  (forall sc,
      length es < max_retries ->
      answers net 0 (map Raise es ++ [Resp sc]) ->
      exists log,
        count_gets log = length es + 1
        /\ count_sleeps log = length es
        /\ (accepted sc ->
            check_link_validity net url [] =
            (Val (Some (url, Some sc, true)), log))
        /\ (~ accepted sc ->
            check_link_validity net url [] =
            (Val (Some (url, Some sc, false)), log)))
  /\ (length es = max_retries ->
      answers net 0 (map Raise es) ->
      check_link_validity net url [] =
      (Val (Some (url, None, false)),
       [EvDisableWarnings;
        EvGet url; EvSleep 1; EvGet url; EvSleep 1; EvGet url; EvSleep 1;
        EvGet url; EvSleep 1; EvGet url])).
Proof.
  intros Hurl Hes. split.
  - intros sc Hlen Hans.
    exists ([EvDisableWarnings] ++ retried_log url (map PlainFailure es)
            ++ [EvGet url]).
    split; [|split].
    + rewrite !count_gets_app, count_gets_retried, plain_failures_calls,
        length_map. reflexivity.
    + rewrite !count_sleeps_app, count_sleeps_retried, length_map.
      unfold count_sleeps. simpl. lia.
    + apply classified. rewrite check_link_validity_probes by exact Hurl.
      apply failures_then_status.
      * now apply plain_failures_ok.
      * rewrite length_map. unfold max_retries in *. lia.
      * now rewrite plain_failures_calls.
  - intros Hlen Hans. rewrite check_link_validity_probes by exact Hurl.
    destruct es as [|e1 [|e2 [|e3 [|e4 [|e5 [|e6 es]]]]]]; try discriminate.
    apply Forall_cons_iff in Hes as [H1 Hes].
    apply Forall_cons_iff in Hes as [H2 Hes].
    apply Forall_cons_iff in Hes as [H3 Hes].
    apply Forall_cons_iff in Hes as [H4 Hes].
    apply Forall_cons_iff in Hes as [Hlast _].
    assert (Hfour : Forall plain_error [e1; e2; e3; e4])
      by (repeat (apply Forall_cons; [assumption|]); apply Forall_nil).
    apply (failures_exhaust net url (map PlainFailure [e1; e2; e3; e4])
             (PlainFailure e5) [EvDisableWarnings]).
    + now apply plain_failures_ok.
    + exact Hlast.
    + reflexivity.
    + exact Hans.
Qed.

Lemma retries_on_transport_errors_witness :
  exists log,
    count_gets log = 3
    /\ check_link_validity
         (fun n => if (n <? 2)%nat then Raise ConnectionError else Resp 200)
         "http://example.org/a" [] =
       (Val (Some ("http://example.org/a", Some 200%Z, true)), log).
Proof.
  destruct (retries_on_transport_errors
              (fun n => if (n <? 2)%nat then Raise ConnectionError else Resp 200)
              "http://example.org/a" [ConnectionError; ConnectionError])
    as [Hstatus _].
  - apply not_allowlisted_by_test. reflexivity.
  - repeat (apply Forall_cons; [split; reflexivity|]). apply Forall_nil.
  - destruct (Hstatus 200%Z) as [log [Hgets [_ [Hacc _]]]].
    + simpl. unfold max_retries. lia.
    + repeat (apply answers_cons; [reflexivity|]). apply answers_nil.
    + exists log. split; [exact Hgets|]. apply Hacc. left. lia.
Defined.

(** C3.  For a URL that contains one of the allowlisted keywords
    ('github', 'google', 'huggingface', 'docker', '127.0.0.1', 'localhost')
    the function returns [(url, 200, True)] and does nothing else: the log
    stays empty, so [requests.get] is not called, whatever the network
    would have answered. *)
Theorem allowlisted_is_not_probed net url keyword :
  In keyword excluded_keywords ->
  Str.Substring keyword url ->
  check_link_validity net url [] = (Val (Some (url, Some 200%Z, true)), [])
  /\ count_gets (snd (check_link_validity net url [])) = 0.
Proof.
  intros Hin Hsub.
  assert (E : check_link_validity net url [] =
              (Val (Some (url, Some 200%Z, true)), [])).
  { unfold check_link_validity.
    now rewrite (allowlist_test_true url keyword Hin Hsub). }
  split; [exact E|]. now rewrite E.
Qed.

Lemma allowlisted_is_not_probed_witness :
  check_link_validity (fun _ => Raise ConnectionError)
    "https://hub.docker.com/r/x" [] =
  (Val (Some ("https://hub.docker.com/r/x", Some 200%Z, true)), []).
Proof.
  apply (allowlisted_is_not_probed (fun _ => Raise ConnectionError)
           "https://hub.docker.com/r/x" "docker").
  - simpl. tauto.
  - apply StrFacts.contains_spec. reflexivity.
Defined.

(** C4.  For a URL without an allowlisted keyword, an attempt whose probe
    raises a TLS-class error makes exactly one more probe, within the same
    attempt.  Let [fs] be the failed attempts so far, each of them either one
    probe that raised a connection, timeout or generic error, or a probe
    that raised a TLS-class error followed by a second probe that raised a
    transport error.  The retry budget counts the attempts of [fs], not
    their probes:
    - if fewer than five attempts failed and the next one raises a TLS-class
      error and then gets a status code from its second probe, that code is
      classified as usual, one sleep having been made per failed attempt;
    - if five attempts failed, the function returns [(url, None, False)]
      after four sleeps, as it does for any transport error;
    - under a prober that raises a TLS-class error on every call the
      function returns [(url, None, False)] after two probes in each of the
      five attempts. *)
Theorem tls_error_is_probed_again net url fs :
  not_allowlisted url ->
  Forall failure_ok fs ->
  (forall e sc,
      length fs < max_retries ->
      tls_error e ->
      answers net 0 (flat_map failure_calls fs ++ [Raise e; Resp sc]) ->
      exists log,
        count_gets log = length (flat_map failure_calls fs) + 2
        /\ count_sleeps log = length fs
        /\ (accepted sc ->
            check_link_validity net url [] =
            (Val (Some (url, Some sc, true)), log))
        /\ (~ accepted sc ->
            check_link_validity net url [] =
            (Val (Some (url, Some sc, false)), log)))
  /\ (length fs = max_retries ->
      answers net 0 (flat_map failure_calls fs) ->
      exists log,
        count_gets log = length (flat_map failure_calls fs)
        /\ count_sleeps log = max_retries - 1
        /\ check_link_validity net url [] = (Val (Some (url, None, false)), log))
  /\ ((forall n, exists e, net n = Raise e /\ tls_error e) ->
      check_link_validity net url [] =
      (Val (Some (url, None, false)),
       [EvDisableWarnings;
        EvGet url; EvGet url; EvSleep 1; EvGet url; EvGet url; EvSleep 1;
        EvGet url; EvGet url; EvSleep 1; EvGet url; EvGet url; EvSleep 1;
        EvGet url; EvGet url])).
Proof.
  intros Hurl Hfs. split; [|split].
  - intros e sc Hlen He Hans.
    exists ([EvDisableWarnings] ++ retried_log url fs ++ [EvGet url; EvGet url]).
    split; [|split].
    + now rewrite !count_gets_app, count_gets_retried.
    + rewrite !count_sleeps_app, count_sleeps_retried.
      unfold count_sleeps. simpl. lia.
    + apply classified. rewrite check_link_validity_probes by exact Hurl.
      apply failures_then_tls_status with (e := e); try assumption.
      unfold max_retries in *. lia.
  - intros Hlen Hans.
    destruct (exists_last (l := fs)) as [fs' [f Efs]];
      [now intros ->|]. subst fs.
    rewrite length_app in Hlen. simpl in Hlen.
    apply Forall_app in Hfs. destruct Hfs as [Hfs' Hf].
    apply Forall_cons_iff in Hf as [Hf _].
    rewrite flat_map_app in *. simpl flat_map in *. rewrite app_nil_r in *.
    exists ([EvDisableWarnings] ++ retried_log url fs' ++ failure_gets url f).
    split; [|split].
    + rewrite !count_gets_app, count_gets_retried, count_gets_failure,
        length_app. reflexivity.
    + rewrite !count_sleeps_app, count_sleeps_retried.
      unfold max_retries in *. destruct f; unfold count_sleeps; simpl; lia.
    + rewrite check_link_validity_probes by exact Hurl.
      apply failures_exhaust; try assumption.
      unfold max_retries in *. lia.
  - intros Hnet. rewrite check_link_validity_probes by exact Hurl.
    assert (Hcall : forall n, exists f,
              failure_ok f /\ failure_calls f = [net n; net (S n)]).
    { intros n. destruct (Hnet n) as [e [E He]].
      destruct (Hnet (S n)) as [e' [E' He']].
      exists (TlsFailure e e'). rewrite E, E'. split; [|reflexivity].
      split; [exact He|]. now apply tls_is_transport. }
    destruct (Hcall 0) as [f1 [H1 E1]]. destruct (Hcall 2) as [f2 [H2 E2]].
    destruct (Hcall 4) as [f3 [H3 E3]]. destruct (Hcall 6) as [f4 [H4 E4]].
    destruct (Hcall 8) as [f5 [H5 E5]].
    cbn [app].
    rewrite (failures_exhaust net url [f1; f2; f3; f4] f5 [EvDisableWarnings]).
    + destruct f1, f2, f3, f4, f5; try discriminate. reflexivity.
    + repeat (apply Forall_cons; [assumption|]). apply Forall_nil.
    + exact H5.
    + reflexivity.
    + simpl flat_map. rewrite E1, E2, E3, E4, E5. simpl.
      repeat (apply answers_cons; [reflexivity|]). apply answers_nil.
Qed.

Lemma tls_error_is_probed_again_witness :
  exists log,
    count_gets log = 10
    /\ count_sleeps log = 4
    /\ check_link_validity (fun _ => Raise SSLError) "http://example.org/a" [] =
       (Val (Some ("http://example.org/a", None, false)), log).
Proof.
  destruct (tls_error_is_probed_again
              (fun _ => Raise SSLError) "http://example.org/a"
              (repeat (TlsFailure SSLError SSLError) 5))
    as [_ [Hfive _]].
  - apply not_allowlisted_by_test. reflexivity.
  - simpl. repeat (apply Forall_cons; [split; reflexivity|]). apply Forall_nil.
  - destruct Hfive as [log H].
    + reflexivity.
    + simpl. repeat (apply answers_cons; [reflexivity|]). apply answers_nil.
    + exists log. exact H.
Defined.

(** C8.  [check_link_validity] always returns a tuple: for every URL and
    every prober whose failures are transport errors (whatever the sequence
    of status codes and errors), the call ends with a [return] of one
    [(url, status_code, is_valid)] tuple.  It neither leaves the retry loop
    without a [return] (which would give [None]) nor lets an exception
    through to the caller. *)
Theorem check_link_validity_always_returns net url :
  transport_only net ->
  exists status_code is_valid log,
    check_link_validity net url [] =
    (Val (Some (url, status_code, is_valid)), log).
Proof.
  intros Hnet.
  destruct (check_link_validity_total net url [] Hnet)
    as [[[u status_code] is_valid] [log E]].
  destruct (check_link_validity_consistent _ _ _ _ _ E) as [-> _].
  now exists status_code, is_valid, log.
Qed.

Lemma check_link_validity_always_returns_witness :
  exists status_code is_valid log,
    check_link_validity
      (fun n => if Nat.even n then Raise SSLError else Raise ReadTimeout)
      "http://example.org/a" [] =
    (Val (Some ("http://example.org/a", status_code, is_valid)), log).
Proof.
  apply (check_link_validity_always_returns
           (fun n => if Nat.even n then Raise SSLError else Raise ReadTimeout)
           "http://example.org/a").
  intros n e H. destruct (Nat.even n); injection H as <-; reflexivity.
Defined.

(** C10.  Every tuple [(url, status_code, is_valid)] that
    [check_link_validity] returns has [is_valid] true if and only if
    [status_code] is present and lies in [200, 400) or is 403.  So an invalid
    tuple has no status code or one outside the accepted set, and a tuple
    without a status code is invalid. *)
Theorem returned_tuple_is_consistent net url u status_code is_valid log :
  check_link_validity net url [] =
  (Val (Some (u, status_code, is_valid)), log) ->
  (is_valid = true <-> exists sc, status_code = Some sc /\ accepted sc)
  /\ (is_valid = false ->
      status_code = None \/ exists sc, status_code = Some sc /\ ~ accepted sc)
  /\ (status_code = None -> is_valid = false).
Proof.
  intros E. destruct (check_link_validity_consistent _ _ _ _ _ E) as [_ Hiff].
  split; [exact Hiff|]. split.
  - intros ->. destruct status_code as [sc|]; [right|now left].
    exists sc. split; [reflexivity|]. intros Hacc.
    assert (false = true) by (apply Hiff; now exists sc). discriminate.
  - intros ->. destruct is_valid; [|reflexivity].
    destruct (proj1 Hiff eq_refl) as [sc [Hsc _]]. discriminate.
Qed.

Lemma returned_tuple_is_consistent_witness :
  (false = true <-> exists sc, Some 500%Z = Some sc /\ accepted sc)
  /\ (false = false ->
      Some 500%Z = None \/ exists sc, Some 500%Z = Some sc /\ ~ accepted sc)
  /\ (Some 500%Z = None -> false = false).
Proof.
  apply (returned_tuple_is_consistent
           (fun n => if (n <? 3)%nat then Raise Timeout else Resp 500)
           "http://example.org/a" "http://example.org/a" (Some 500%Z) false
           [EvDisableWarnings;
            EvGet "http://example.org/a"; EvSleep 1;
            EvGet "http://example.org/a"; EvSleep 1;
            EvGet "http://example.org/a"; EvSleep 1;
            EvGet "http://example.org/a"]).
  reflexivity.
Defined.

(** ** The engine: submitting and collecting *)

Lemma submit_url nets j link : task_url (submit nets j link) = link.
Proof.
  unfold submit. now destruct (check_link_validity (nets j) link []).
Qed.

Lemma submit_honest nets j link : honest (submit nets j link).
Proof.
  intros u status_code is_valid. rewrite submit_url. unfold submit.
  destruct (check_link_validity (nets j) link []) as [r log] eqn:E. simpl.
  intros ->. now destruct (check_link_validity_consistent _ _ _ _ _ E).
Qed.

Lemma submit_returned nets j link :
  transport_only (nets j) -> returned (submit nets j link).
Proof.
  intros Hnet. unfold returned. rewrite submit_url.
  destruct (check_link_validity_total (nets j) link [] Hnet)
    as [[[u status_code] is_valid] [log E]].
  destruct (check_link_validity_consistent _ _ _ _ _ E) as [-> _].
  exists status_code, is_valid. unfold submit. now rewrite E.
Qed.

Lemma submit_from_facts nets (P : future -> Prop) links :
  (forall j link, P (submit nets j link)) ->
  forall from,
    let futures := map (fun jl => submit nets (fst jl) (snd jl))
                       (combine (seq from (length links)) links) in
    Forall P futures /\ map task_url futures = links.
Proof.
  intros HP. induction links as [|link links IH]; intros from; simpl.
  - split; [constructor|reflexivity].
  - destruct (IH (S from)) as [IH1 IH2]. split.
    + constructor; [apply HP|exact IH1].
    + now rewrite submit_url, IH2.
Qed.

Lemma submit_all_urls nets links :
  map task_url (submit_all nets links) = links.
Proof.
  now apply (submit_from_facts nets (fun _ => True) links (fun _ _ => I) 0).
Qed.

Lemma submit_all_length nets links :
  length (submit_all nets links) = length links.
Proof. now rewrite <- (submit_all_urls nets links) at 2; rewrite length_map. Qed.

Lemma submit_all_honest nets links : Forall honest (submit_all nets links).
Proof.
  now apply (submit_from_facts nets honest links (submit_honest nets) 0).
Qed.

Lemma submit_all_returned nets links :
  (forall j, transport_only (nets j)) ->
  Forall returned (submit_all nets links).
Proof.
  intros Hnets.
  now apply (submit_from_facts nets returned links
               (fun j link => submit_returned nets j link (Hnets j)) 0).
Qed.

Lemma as_completed_in sched futures f :
  In f (as_completed sched futures) -> In f futures.
Proof.
  unfold as_completed. rewrite in_flat_map. intros [j [_ Hf]].
  destruct (nth_error futures j) as [g|] eqn:E; [|contradiction].
  destruct Hf as [<-|[]]. now apply nth_error_In with (n := j).
Qed.

Lemma as_completed_forall (P : future -> Prop) sched futures :
  Forall P futures -> Forall P (as_completed sched futures).
Proof.
  rewrite !Forall_forall. intros H f Hf. now apply H, as_completed_in with sched.
Qed.

Lemma as_completed_in_order (before futures : list future) :
  flat_map (fun j => match nth_error (before ++ futures) j with
                     | Some f => [f]
                     | None => []
                     end)
           (seq (length before) (length futures)) = futures.
Proof.
  revert before. induction futures as [|f futures IH]; intros before.
  - reflexivity.
  - cbn [length seq flat_map].
    rewrite nth_error_app2, Nat.sub_diag by lia. cbn [nth_error app].
    f_equal. specialize (IH (before ++ [f])).
    rewrite <- app_assoc, length_app, Nat.add_1_r in IH. exact IH.
Qed.

Lemma as_completed_permutation sched futures :
  Permutation sched (seq 0 (length futures)) ->
  Permutation (as_completed sched futures) futures.
Proof.
  intros H. unfold as_completed. rewrite H.
  pose proof (as_completed_in_order [] futures) as E. simpl in E.
  now rewrite E.
Qed.

Lemma interrupted_none i p : interrupted None i p = false.
Proof. reflexivity. Qed.

(** Without an interrupt, over tasks that all returned, the loop runs to
    its end and has put each link in one of the two lists. *)
Lemma collect_completes total completed : forall i st,
  Forall returned completed ->
  exists st',
    collect total None i completed st = (Val tt, st')
    /\ Permutation (valid_links st' ++ invalid_links st')
         ((valid_links st ++ invalid_links st) ++ map task_url completed).
Proof.
  induction completed as [|f rest IH]; intros i st Hall.
  - exists st. split; [reflexivity|]. simpl. now rewrite app_nil_r.
  - apply Forall_cons_iff in Hall as [[status_code [is_valid Hf]] Hrest].
    cbn [collect]. rewrite !interrupted_none, Hf.
    destruct is_valid.
    + destruct (IH (S i) (append_valid (task_url f)
                  (emit (ActProgress i total (task_url f)) st)) Hrest)
        as [st' [E HP]].
      exists st'. split; [exact E|]. rewrite HP. simpl.
      rewrite <- !app_assoc. apply Permutation_app_head. simpl.
      apply Permutation_middle.
    + destruct (IH (S i)
                  (emit (ActInvalid (task_url f))
                     (append_invalid (task_url f)
                        (emit (ActProgress i total (task_url f)) st))) Hrest)
        as [st' [E HP]].
      exists st'. split; [exact E|]. rewrite HP. simpl.
      now rewrite <- !app_assoc.
Qed.

Lemma submissions_lists futures : forall st,
  let st' := fold_left (fun st f => emit (ActSubmit (task_url f)) st) futures st in
  valid_links st' = valid_links st
  /\ invalid_links st' = invalid_links st
  /\ actions st' = actions st ++ map ActSubmit (map task_url futures).
Proof.
  induction futures as [|f futures IH]; intros st; simpl.
  - now rewrite app_nil_r.
  - destruct (IH (emit (ActSubmit (task_url f)) st)) as [H1 [H2 H3]].
    rewrite H1, H2, H3. simpl. now rewrite <- app_assoc.
Qed.

Lemma extends_refl total urls st : extends total urls st st.
Proof.
  exists [], [], []. rewrite !app_nil_r. repeat split; try easy.
Qed.

Lemma extends_trans total urls st1 st2 st3 :
  extends total urls st1 st2 -> extends total urls st2 st3 ->
  extends total urls st1 st3.
Proof.
  intros [vs [ivs [acts [Hv [Hi [Ha [Iv [Ii Fa]]]]]]]]
         [vs' [ivs' [acts' [Hv' [Hi' [Ha' [Iv' [Ii' Fa']]]]]]]].
  exists (vs ++ vs'), (ivs ++ ivs'), (acts ++ acts').
  rewrite Hv', Hi', Ha', Hv, Hi, Ha, <- !app_assoc.
  repeat split; try apply incl_app; try assumption.
  apply Forall_app. now split.
Qed.

Lemma extends_more total urls u st st' :
  extends total urls st st' -> extends total (u :: urls) st st'.
Proof.
  intros [vs [ivs [acts [Hv [Hi [Ha [Iv [Ii Fa]]]]]]]].
  exists vs, ivs, acts. repeat split; try assumption.
  - now apply incl_tl.
  - now apply incl_tl.
  - eapply Forall_impl; [|exact Fa]. intros a [w [Hw Ha']].
    exists w. split; [now right|exact Ha'].
Qed.

Lemma extends_emit total urls a st :
  collect_action total urls a -> extends total urls st (emit a st).
Proof.
  intros Ha. exists [], [], [a]. simpl. rewrite !app_nil_r.
  repeat split; try easy. now constructor.
Qed.

Lemma extends_append_valid total urls u st :
  In u urls -> extends total urls st (append_valid u st).
Proof.
  intros Hu. exists [u], [], []. simpl. rewrite !app_nil_r.
  repeat split; try easy. intros w [<-|[]]. exact Hu.
Qed.

Lemma extends_append_invalid total urls u st :
  In u urls -> extends total urls st (append_invalid u st).
Proof.
  intros Hu. exists [], [u], []. simpl. rewrite !app_nil_r.
  repeat split; try easy. intros w [<-|[]]. exact Hu.
Qed.

(** Whatever the interrupt and whatever the tasks did, the loop only adds
    links of the completed tasks to the lists, and only prints about them. *)
Lemma collect_extends total intr completed : forall i st,
  Forall honest completed ->
  extends total (map task_url completed) st
          (snd (collect total intr i completed st)).
Proof.
  induction completed as [|f rest IH]; intros i st Hall.
  - apply extends_refl.
  - apply Forall_cons_iff in Hall as [Hf Hrest]. cbn [collect map].
    set (urls := task_url f :: map task_url rest).
    assert (Hin : In (task_url f) urls) by now left.
    destruct (interrupted intr i AtResult); [apply extends_refl|].
    destruct (task_result f) as [[[[u status_code] is_valid]|]|e] eqn:E;
      try apply extends_refl.
    rewrite (Hf _ _ _ E).
    destruct (interrupted intr i AtPrint); [apply extends_refl|].
    assert (H1 : extends total urls st
                   (emit (ActProgress i total (task_url f)) st)).
    { apply extends_emit. exists (task_url f). split; [exact Hin|]. right.
      now exists i. }
    destruct (interrupted intr i AtAppend); [exact H1|].
    destruct is_valid.
    + eapply extends_trans; [exact H1|].
      eapply extends_trans; [apply extends_append_valid, Hin|].
      apply extends_more, IH, Hrest.
    + assert (H2 : extends total urls st
                     (append_invalid (task_url f)
                        (emit (ActProgress i total (task_url f)) st))).
      { eapply extends_trans; [exact H1|]. apply extends_append_invalid, Hin. }
      destruct (interrupted intr i AtPrintInvalid); [exact H2|].
      eapply extends_trans; [exact H2|].
      eapply extends_trans.
      * apply extends_emit. exists (task_url f). split; [exact Hin|]. now left.
      * apply extends_more, IH, Hrest.
Qed.

Lemma extends_incl total urls urls' st st' :
  incl urls urls' -> extends total urls st st' -> extends total urls' st st'.
Proof.
  intros Hincl [vs [ivs [acts [Hv [Hi [Ha [Iv [Ii Fa]]]]]]]].
  exists vs, ivs, acts. repeat split; try assumption.
  - now apply incl_tran with urls.
  - now apply incl_tran with urls.
  - eapply Forall_impl; [|exact Fa]. intros a [w [Hw Ha']].
    exists w. split; [now apply Hincl|exact Ha'].
Qed.

Lemma completed_urls nets sched links :
  incl (map task_url (as_completed sched (submit_all nets links))) links.
Proof.
  intros u Hu. apply in_map_iff in Hu. destruct Hu as [f [<- Hf]].
  apply as_completed_in in Hf. rewrite <- (submit_all_urls nets links).
  now apply in_map.
Qed.

(** The state in which the collection loop starts. *)
Lemma state_after_submissions nets links all :
  let st1 := fold_left (fun st f => emit (ActSubmit (task_url f)) st)
               (submit_all nets links)
               {| valid_links := []; invalid_links := [];
                  actions := [ActTotal all] |} in
  valid_links st1 = [] /\ invalid_links st1 = []
  /\ actions st1 = ActTotal all :: map ActSubmit links.
Proof.
  intros st1.
  destruct (submissions_lists (submit_all nets links)
              {| valid_links := []; invalid_links := [];
                 actions := [ActTotal all] |}) as [H1 [H2 H3]].
  fold st1 in H1, H2, H3. rewrite submit_all_urls in H3. now rewrite H1, H2, H3.
Qed.

(** What every run of the engine looks like, interrupted or not: the total,
    the submissions of the dispatched links, then lines about dispatched
    links and possibly the interruption message; the two lists hold
    dispatched links only. *)
Lemma run_shape nets sched intr links :
  let st := snd (clean_bookmarks nets sched intr links) in
  incl (valid_links st) (dispatched links)
  /\ incl (invalid_links st) (dispatched links)
  /\ exists tail,
       actions st =
       ActTotal (length links) :: map ActSubmit (dispatched links) ++ tail
       /\ Forall (fun a => a = ActInterrupted
                           \/ collect_action (length links) (dispatched links) a)
                 tail.
Proof.
  unfold clean_bookmarks.
  set (futures := submit_all nets (dispatched links)).
  set (st1 := fold_left _ futures _).
  destruct (state_after_submissions nets (dispatched links) (length links))
    as [H1 [H2 H3]]. fold futures in H1, H2, H3. fold st1 in H1, H2, H3.
  pose proof (collect_extends (length links) intr (as_completed sched futures)
                1 st1 (as_completed_forall honest sched futures
                         (submit_all_honest nets (dispatched links)))) as Hext.
  apply (extends_incl _ _ (dispatched links)) in Hext;
    [|apply completed_urls].
  destruct Hext as [vs [ivs [acts [Hv [Hi [Ha [Iv [Ii Fa]]]]]]]].
  rewrite H1 in Hv. rewrite H2 in Hi. rewrite H3 in Ha. simpl in Hv, Hi, Ha.
  assert (Fa' : Forall (fun a => a = ActInterrupted
                  \/ collect_action (length links) (dispatched links) a) acts).
  { eapply Forall_impl; [|exact Fa]. intros a Hc. now right. }
  destruct (collect _ intr 1 _ st1) as [[[]|e] st] eqn:E; simpl in Hv, Hi, Ha.
  - simpl. rewrite Hv, Hi, Ha. repeat split; try assumption. now exists acts.
  - destruct (isinstance e KeyboardInterrupt); simpl; rewrite Hv, Hi, Ha.
    + repeat split; try assumption. exists (acts ++ [ActInterrupted]).
      split; [simpl; now rewrite <- app_assoc|].
      apply Forall_app. split; [exact Fa'|]. constructor; [now left|constructor].
    + repeat split; try assumption. now exists acts.
Qed.

Lemma skipped_not_dispatched links url :
  Str.Substring "2025" url -> ~ In url (dispatched links).
Proof.
  intros Hsub Hin. apply filter_In in Hin. destruct Hin as [_ Hneg].
  apply StrFacts.contains_spec in Hsub. now rewrite Hsub in Hneg.
Qed.

(** ** The engine: [clean_bookmarks] *)

(** C5.  A URL that contains "2025" is never handed to the worker pool and
    is in neither list of the report, whatever else it contains (an
    allowlisted keyword, for instance), whatever the network answers, in
    whatever order the tasks complete and whether or not the run is
    interrupted.  No line of the progress output is about it either. *)
Theorem links_with_2025_are_skipped nets sched intr links url :
  Str.Substring "2025" url ->
  let st := snd (clean_bookmarks nets sched intr links) in
  ~ In url (dispatched links)
  /\ ~ In url (map task_url (submit_all nets (dispatched links)))
  /\ ~ In url (valid_links st)
  /\ ~ In url (invalid_links st)
  /\ (forall a, In a (actions st) -> action_url a <> Some url).
Proof.
  intros Hsub st. pose proof (skipped_not_dispatched links url Hsub) as Hnot.
  destruct (run_shape nets sched intr links) as [Hv [Hi [tail [Ha Ft]]]].
  fold st in Hv, Hi, Ha. repeat split.
  - exact Hnot.
  - now rewrite submit_all_urls.
  - intros H. now apply Hnot, Hv.
  - intros H. now apply Hnot, Hi.
  - intros a Hin. rewrite Ha in Hin. destruct Hin as [<-|Hin]; [discriminate|].
    apply in_app_or in Hin. destruct Hin as [Hin|Hin].
    + apply in_map_iff in Hin. destruct Hin as [u [<- Hu]]. simpl.
      intros E. injection E as ->. now apply Hnot.
    + rewrite Forall_forall in Ft.
      destruct (Ft a Hin) as [->|[u [Hu [->|[i ->]]]]]; simpl;
        try discriminate; intros E; injection E as ->; now apply Hnot.
Qed.

Lemma links_with_2025_are_skipped_witness :
  let st := snd (clean_bookmarks (fun _ _ => Resp 200) [1; 0] None
                   ["https://github.com/a/2025-notes";
                    "http://example.org/b"]) in
  ~ In "https://github.com/a/2025-notes" (valid_links st)
  /\ ~ In "https://github.com/a/2025-notes" (invalid_links st).
Proof.
  destruct (links_with_2025_are_skipped (fun _ _ => Resp 200) [1; 0] None
              ["https://github.com/a/2025-notes"; "http://example.org/b"]
              "https://github.com/a/2025-notes")
    as [_ [_ [Hv [Hi _]]]].
  - apply StrFacts.contains_spec. reflexivity.
  - split; [exact Hv|exact Hi].
Defined.

Lemma NoDup_app_disjoint {A} (l l' : list A) a :
  NoDup (l ++ l') -> In a l -> ~ In a l'.
Proof.
  induction l as [|b l IH]; simpl; [easy|].
  intros Hnd [->|Hin] Hin'.
  - apply NoDup_cons_iff in Hnd as [Hnot _]. apply Hnot, in_or_app. now right.
  - apply NoDup_cons_iff in Hnd as [_ Hnd]. now apply (IH Hnd Hin).
Qed.

(** C6, as the code has it.  When the prober only fails with transport
    errors and every task completes, the run goes on to the confirmation
    step with a report in which [valid_links ++ invalid_links] is a
    rearrangement of the dispatched links, occurrence by occurrence: no link
    is missing and the two lengths add up to the number of dispatched links.
    When the dispatched links are pairwise distinct, every link is in exactly
    one of the two lists and no entry is repeated. *)
Theorem report_covers_dispatched nets sched links :
  (forall j, transport_only (nets j)) ->
  Permutation sched (seq 0 (length (dispatched links))) ->
  exists st,
    clean_bookmarks nets sched None links = (Val GoesOn, st)
    /\ Permutation (valid_links st ++ invalid_links st) (dispatched links)
    /\ length (valid_links st) + length (invalid_links st)
       = length (dispatched links)
    /\ (NoDup (dispatched links) -> report_partitions links st).
Proof.
  intros Hnets Hsched. unfold clean_bookmarks.
  set (futures := submit_all nets (dispatched links)).
  set (st1 := fold_left _ futures _).
  destruct (state_after_submissions nets (dispatched links) (length links))
    as [H1 [H2 _]]. fold futures in H1, H2. fold st1 in H1, H2.
  destruct (collect_completes (length links) (as_completed sched futures) 1 st1)
    as [st [E HP]].
  { apply as_completed_forall. now apply submit_all_returned. }
  rewrite H1, H2 in HP. simpl in HP.
  assert (HP' : Permutation (valid_links st ++ invalid_links st)
                            (dispatched links)).
  { rewrite HP, <- (submit_all_urls nets (dispatched links)).
    apply Permutation_map, as_completed_permutation.
    unfold futures. now rewrite submit_all_length. }
  exists st. rewrite E. split; [reflexivity|]. split; [exact HP'|].
  assert (Hlen : length (valid_links st) + length (invalid_links st)
                 = length (dispatched links)).
  { now rewrite <- length_app, (Permutation_length HP'). }
  split; [exact Hlen|].
  intros Hnd. apply (Permutation_NoDup (Permutation_sym HP')) in Hnd.
  repeat split.
  - now apply NoDup_app_remove_r in Hnd.
  - now apply NoDup_app_remove_l in Hnd.
  - intros u [Hv Hi]. now apply (NoDup_app_disjoint _ _ u Hnd Hv).
  - intros u Hu. apply in_app_or.
    now apply (Permutation_in u (Permutation_sym HP')).
  - exact Hlen.
Qed.

Lemma report_covers_dispatched_witness :
  exists st,
    clean_bookmarks (fun j _ => if (j =? 0)%nat then Resp 200 else Resp 404)
      [1; 0] None
      ["http://example.org/a"; "http://example.org/2025";
       "http://example.org/b"] = (Val GoesOn, st)
    /\ length (valid_links st) + length (invalid_links st) = 2.
Proof.
  destruct (report_covers_dispatched
              (fun j _ => if (j =? 0)%nat then Resp 200 else Resp 404) [1; 0]
              ["http://example.org/a"; "http://example.org/2025";
               "http://example.org/b"])
    as [st [E [_ [Hlen _]]]].
  - intros j n e H. destruct (j =? 0)%nat; discriminate.
  - simpl. apply perm_swap.
  - exists st. split; [exact E|exact Hlen].
Defined.

(** C6, as stated, fails: a link that occurs twice in the document is
    submitted twice, and when the first probe gets 200 and the second 404 the
    link is both in [valid_links] and in [invalid_links]. *)
Lemma duplicate_link_in_both_lists :
  ~ report_partitions
      ["http://example.org/a"; "http://example.org/a"]
      (snd (clean_bookmarks
              (fun j _ => if (j =? 0)%nat then Resp 200 else Resp 404)
              [0; 1] None
              ["http://example.org/a"; "http://example.org/a"])).
Proof.
  intros [_ [_ [Hboth _]]]. apply (Hboth "http://example.org/a").
  split; vm_compute; now left.
Qed.

(** C7.  The progress line of a completed task reports the number of all
    extracted links as its total, not the number of dispatched links: with
    one of two links skipped for its "2025", the only progress line is
    "1/2" although one task was submitted. *)
Theorem progress_total_counts_skipped_links :
  let links := ["http://example.org/2025/a"; "http://example.org/b"] in
  let st := snd (clean_bookmarks (fun _ _ => Resp 200) [0] None links) in
  length (dispatched links) = 1
  /\ actions st =
     [ActTotal 2; ActSubmit "http://example.org/b";
      ActProgress 1 2 "http://example.org/b"].
Proof. split; reflexivity. Qed.

(** ** Interrupting the collection *)

Lemma partial_refl st : partial_of st st.
Proof. split; exists []; now rewrite app_nil_r. Qed.

Lemma partial_trans st1 st2 st3 :
  partial_of st1 st2 -> partial_of st2 st3 -> partial_of st1 st3.
Proof.
  intros [[vs Hv] [ivs Hi]] [[vs' Hv'] [ivs' Hi']]. split.
  - exists (vs ++ vs'). now rewrite Hv', Hv, app_assoc.
  - exists (ivs ++ ivs'). now rewrite Hi', Hi, app_assoc.
Qed.

Lemma extends_partial total urls st st' :
  extends total urls st st' -> partial_of st st'.
Proof.
  intros [vs [ivs [acts [Hv [Hi _]]]]]. split; [now exists vs|now exists ivs].
Qed.

(** A state with shorter lists stays partial with respect to whatever the
    uninterrupted loop makes of a state with longer ones. *)
Lemma partial_collect total completed i st st' :
  Forall honest completed ->
  partial_of st st' ->
  partial_of st (snd (collect total None i completed st')).
Proof.
  intros Hall H. apply partial_trans with st'; [exact H|].
  eapply extends_partial, collect_extends, Hall.
Qed.

Ltac solve_partial Hv Hi :=
  apply partial_collect; [assumption|];
  split; simpl; rewrite <- ?Hv, <- ?Hi; eexists;
  first [symmetry; apply app_nil_r | reflexivity].

(** The lists of an interrupted run are initial segments of the lists of
    the run that is not interrupted. *)
Lemma collect_prefix total intr completed : forall i st st_full,
  Forall honest completed ->
  valid_links st = valid_links st_full ->
  invalid_links st = invalid_links st_full ->
  partial_of (snd (collect total intr i completed st))
             (snd (collect total None i completed st_full)).
Proof.
  induction completed as [|f rest IH]; intros i st st_full Hall Hv Hi.
  - simpl. split; exists []; now rewrite app_nil_r.
  - apply Forall_cons_iff in Hall as [Hf Hrest].
    cbn [collect]. rewrite !interrupted_none.
    destruct (task_result f) as [[[[u status_code] is_valid]|]|e].
    + destruct (interrupted intr i AtResult);
        [destruct is_valid; solve_partial Hv Hi|].
      destruct (interrupted intr i AtPrint);
        [destruct is_valid; solve_partial Hv Hi|].
      destruct (interrupted intr i AtAppend);
        [destruct is_valid; solve_partial Hv Hi|].
      destruct is_valid.
      * apply IH; [exact Hrest| |]; simpl; congruence.
      * destruct (interrupted intr i AtPrintInvalid);
          [solve_partial Hv Hi|].
        apply IH; [exact Hrest| |]; simpl; congruence.
    + destruct (interrupted intr i AtResult); simpl;
        split; exists []; rewrite app_nil_r; congruence.
    + destruct (interrupted intr i AtResult); simpl;
        split; exists []; rewrite app_nil_r; congruence.
Qed.

(** Over tasks that all returned, the loop ends normally or by the
    interrupt, never by another exception. *)
Lemma collect_outcome total intr completed : forall i st,
  Forall returned completed ->
  fst (collect total intr i completed st) = Val tt
  \/ fst (collect total intr i completed st) = Exc KeyboardInterrupt.
Proof.
  induction completed as [|f rest IH]; intros i st Hall.
  - now left.
  - apply Forall_cons_iff in Hall as [[status_code [is_valid Hf]] Hrest].
    cbn [collect]. rewrite Hf.
    destruct (interrupted intr i AtResult); [now right|].
    destruct (interrupted intr i AtPrint); [now right|].
    destruct (interrupted intr i AtAppend); [now right|].
    destruct is_valid; [now apply IH|].
    destruct (interrupted intr i AtPrintInvalid); [now right|].
    now apply IH.
Qed.

(** An interrupt that arrives in iteration [i], before the [append] of that
    iteration, ends the loop with the results of [i - 1] tasks in the
    lists. *)
Lemma collect_interrupted total i p completed :
  p <> AtPrintInvalid ->
  forall from st,
    Forall returned completed ->
    from <= i < from + length completed ->
    exists st',
      collect total (Some (i, p)) from completed st = (Exc KeyboardInterrupt, st')
      /\ length (valid_links st') + length (invalid_links st')
         = length (valid_links st) + length (invalid_links st) + (i - from).
Proof.
  intros Hp. induction completed as [|f rest IH]; intros from st Hall Hi.
  - simpl in Hi. lia.
  - apply Forall_cons_iff in Hall as [[status_code [is_valid Hf]] Hrest].
    cbn [collect interrupted]. rewrite Hf.
    destruct (Nat.eqb_spec from i) as [->|Hne].
    + rewrite Nat.sub_diag, Nat.add_0_r.
      destruct p; simpl;
        try (eexists; split; [reflexivity|simpl; lia]).
      now destruct (Hp eq_refl).
    + simpl. simpl in Hi.
      destruct is_valid;
        match goal with
        | |- context [collect total _ (S from) rest ?s] =>
            destruct (IH (S from) s Hrest) as [st' [E Hlen]]; [lia|];
            exists st'; split; [exact E|]; rewrite Hlen; simpl;
            rewrite ?length_app; simpl; lia
        end.
Qed.

(** The run is the collection loop, started with empty lists, followed by
    the [except KeyboardInterrupt] clause. *)
Lemma run_of_collect nets sched links :
  exists st1,
    valid_links st1 = [] /\ invalid_links st1 = []
    /\ forall intr,
         clean_bookmarks nets sched intr links =
         match collect (length links) intr 1
                 (as_completed sched (submit_all nets (dispatched links))) st1
         with
         | (Val _, st) => (Val GoesOn, st)
         | (Exc e, st) =>
             if isinstance e KeyboardInterrupt then
               (Val Returned, emit ActInterrupted st)
             else (Exc e, st)
         end.
Proof.
  destruct (state_after_submissions nets (dispatched links) (length links))
    as [H1 [H2 _]].
  eexists. split; [exact H1|]. split; [exact H2|]. reflexivity.
Qed.

(** C9.  An interrupt during the collection of the results is a normal way
    for the run to end.  Under a prober that only fails with transport
    errors, whenever and wherever in the loop the [KeyboardInterrupt]
    arrives, [clean_bookmarks] ends without raising; all the submissions
    come before the first result is collected, none follows; and the two
    lists are initial segments of those of the uninterrupted run.  When the
    interrupt arrives in iteration [i] before the [append] of that
    iteration, the function returns by its [return] statement after the
    interruption message with the results of [i - 1] tasks in the lists
    (none when [i = 1]). *)
Theorem interrupt_is_a_normal_return nets sched intr links :
  (forall j, transport_only (nets j)) ->
  let completed := as_completed sched (submit_all nets (dispatched links)) in
  let full := snd (clean_bookmarks nets sched None links) in
  exists flow st tail,
    clean_bookmarks nets sched intr links = (Val flow, st)
    /\ actions st =
       ActTotal (length links) :: map ActSubmit (dispatched links) ++ tail
    /\ (forall u, ~ In (ActSubmit u) tail)
    /\ partial_of st full
    /\ (forall i p,
          intr = Some (i, p) ->
          1 <= i <= length completed ->
          p <> AtPrintInvalid ->
          flow = Returned
          /\ length (valid_links st) + length (invalid_links st) = i - 1
          /\ exists before, actions st = before ++ [ActInterrupted]).
Proof.
  intros Hnets completed full.
  assert (Hret : Forall returned completed)
    by (apply as_completed_forall; now apply submit_all_returned).
  assert (Hhon : Forall honest completed)
    by (apply as_completed_forall, submit_all_honest).
  destruct (run_of_collect nets sched links) as [st1 [Hv1 [Hi1 Hrun]]].
  fold completed in Hrun.
  destruct (collect_completes (length links) completed 1 st1 Hret)
    as [st_full [Efull _]].
  assert (Efull' : full = st_full)
    by (unfold full; now rewrite (Hrun None), Efull).
  pose proof (collect_prefix (length links) intr completed 1 st1 st1 Hhon
                eq_refl eq_refl) as Hpre.
  rewrite Efull in Hpre. simpl in Hpre. rewrite <- Efull' in Hpre.
  destruct (run_shape nets sched intr links) as [_ [_ [tail [Hact Ftail]]]].
  assert (Hnosubmit : forall u, ~ In (ActSubmit u) tail).
  { intros u Hin. rewrite Forall_forall in Ftail.
    destruct (Ftail _ Hin) as [E|[w [_ [E|[k E]]]]]; discriminate. }
  rewrite (Hrun intr) in Hact. rewrite (Hrun intr).
  pose proof (collect_outcome (length links) intr completed 1 st1 Hret) as Hout.
  destruct (collect (length links) intr 1 completed st1) as [r stc] eqn:Ec.
  simpl in Hout, Hpre.
  destruct Hout as [-> | ->]; simpl in Hact |- *.
  - exists GoesOn, stc, tail.
    split; [reflexivity|]. split; [exact Hact|]. split; [exact Hnosubmit|].
    split; [exact Hpre|].
    intros i p -> Hi Hp.
    destruct (collect_interrupted (length links) i p completed Hp 1 st1 Hret)
      as [st' [E _]]; [lia|]. rewrite E in Ec. discriminate.
  - exists Returned, (emit ActInterrupted stc), tail.
    split; [reflexivity|]. split; [exact Hact|]. split; [exact Hnosubmit|].
    split; [exact Hpre|].
    intros i p -> Hi Hp.
    destruct (collect_interrupted (length links) i p completed Hp 1 st1 Hret)
      as [st' [E Hlen]]; [lia|]. rewrite E in Ec. injection Ec as ->.
    split; [reflexivity|]. split.
    + simpl. rewrite Hlen, Hv1, Hi1. reflexivity.
    + now exists (actions stc).
Qed.

Lemma interrupt_is_a_normal_return_witness :
  exists st,
    clean_bookmarks (fun j _ => if (j =? 0)%nat then Resp 200 else Resp 404)
      [2; 0; 1] (Some (2, AtResult))
      ["http://example.org/a"; "http://example.org/b";
       "http://example.org/c"] = (Val Returned, st)
    /\ length (valid_links st) + length (invalid_links st) = 1.
Proof.
  destruct (interrupt_is_a_normal_return
              (fun j _ => if (j =? 0)%nat then Resp 200 else Resp 404)
              [2; 0; 1] (Some (2, AtResult))
              ["http://example.org/a"; "http://example.org/b";
               "http://example.org/c"])
    as [flow [st [tail [E [_ [_ [_ Hint]]]]]]].
  - intros j n e H. destruct (j =? 0)%nat; discriminate.
  - destruct (Hint 2 AtResult eq_refl) as [Hflow [Hlen _]].
    + simpl. lia.
    + discriminate.
    + exists st. rewrite <- Hflow. split; [exact E|exact Hlen].
Defined.

(** ** More about the retry controller *)

Lemma foreign_not_caught e :
  ~ transport_error e ->
  isinstance e RequestException = false
  /\ isinstance e SSLError = false
  /\ isinstance e ConnectionError = false
  /\ isinstance e Timeout = false.
Proof.
  unfold transport_error. destruct e; cbv; intros H; repeat split;
    try reflexivity; now destruct H.
Qed.

(** What one attempt adds to the log, and how it ends. *)
Lemma attempt_shape net url attempt log :
  exists ext,
    snd (attempt_body net url attempt log) = log ++ ext
    /\ count_gets ext <= 2
    /\ Forall (own_event url) ext
    /\ match fst (attempt_body net url attempt log) with
       | Val (Some _) =>
           count_sleeps ext = 0 /\ exists pre, ext = pre ++ [EvGet url]
       | Val None =>
           attempt <> max_retries - 1 /\ count_sleeps ext = 1
       | Exc e =>
           ~ transport_error e /\ (exists n, net n = Raise e)
           /\ count_sleeps ext = 0 /\ exists pre, ext = pre ++ [EvGet url]
       end.
Proof.
  assert (Hget : own_event url (EvGet url)) by (right; now left).
  assert (Hsleep : own_event url (EvSleep 1%Z)) by (right; now right).
  assert (Hgive : forall gets,
    (gets = [EvGet url] \/ gets = [EvGet url; EvGet url]) ->
    exists ext,
      snd (give_up_or_wait url attempt (log ++ gets)) = log ++ ext
      /\ count_gets ext <= 2
      /\ Forall (own_event url) ext
      /\ match fst (give_up_or_wait url attempt (log ++ gets)) with
         | Val (Some _) =>
             count_sleeps ext = 0 /\ exists pre, ext = pre ++ [EvGet url]
         | Val None => attempt <> max_retries - 1 /\ count_sleeps ext = 1
         | Exc e =>
             ~ transport_error e /\ (exists n, net n = Raise e)
             /\ count_sleeps ext = 0 /\ exists pre, ext = pre ++ [EvGet url]
         end).
  { intros gets Hgets. unfold give_up_or_wait.
    destruct (Nat.eqb_spec attempt (max_retries - 1)) as [E|E].
    - exists gets. simpl.
      destruct Hgets as [-> | ->]; (split; [reflexivity|]);
        (split; [cbv; lia|]); (split; [repeat constructor; assumption|]);
        (split; [reflexivity|]).
      + now exists [].
      + now exists [EvGet url].
    - exists (gets ++ [EvSleep 1%Z]). unfold bind, time_sleep, ret. simpl.
      rewrite <- app_assoc.
      destruct Hgets as [-> | ->]; (split; [reflexivity|]);
        (split; [cbv; lia|]); (split; [repeat constructor; assumption|]);
        (split; [exact E|reflexivity]). }
  unfold attempt_body, try_except, bind, requests_get, ret.
  destruct (net (count_gets log)) as [sc|e] eqn:E1.
  - exists [EvGet url]. simpl. split; [reflexivity|]. split; [cbv; lia|].
    split; [now constructor|]. split; [reflexivity|now exists []].
  - destruct (isinstance e SSLError) eqn:Es.
    + destruct (net (count_gets (log ++ [EvGet url]))) as [sc|e'] eqn:E2.
      * exists [EvGet url; EvGet url]. simpl. rewrite <- app_assoc.
        split; [reflexivity|]. split; [cbv; lia|].
        split; [repeat constructor; assumption|].
        split; [reflexivity|now exists [EvGet url]].
      * destruct (isinstance e' RequestException) eqn:Et.
        -- rewrite <- app_assoc. apply Hgive. now right.
        -- exists [EvGet url; EvGet url]. simpl. rewrite <- app_assoc.
           split; [reflexivity|]. split; [cbv; lia|].
           split; [repeat constructor; assumption|].
           split; [unfold transport_error; congruence|].
           split; [now exists (count_gets (log ++ [EvGet url]))|].
           split; [reflexivity|now exists [EvGet url]].
    + destruct (isinstance e ConnectionError || isinstance e Timeout);
        [apply Hgive; now left|].
      destruct (isinstance e RequestException) eqn:Et;
        [apply Hgive; now left|].
      exists [EvGet url]. simpl. split; [reflexivity|]. split; [cbv; lia|].
      split; [now constructor|].
      split; [unfold transport_error; congruence|].
      split; [now exists (count_gets log)|].
      split; [reflexivity|now exists []].
Qed.

(** What the loop adds to the log from attempt number [attempt] on, and how
    it ends: never by falling out of the loop. *)
Lemma loop_shape net url : forall n attempt log,
  attempt + S n = max_retries ->
  exists ext,
    snd (for_range (seq attempt (S n)) (attempt_body net url) log) = log ++ ext
    /\ count_gets ext <= 2 * S n
    /\ count_sleeps ext <= n
    /\ Forall (own_event url) ext
    /\ (exists pre, ext = pre ++ [EvGet url])
    /\ match fst (for_range (seq attempt (S n)) (attempt_body net url) log) with
       | Val (Some _) => True
       | Val None => False
       | Exc e => ~ transport_error e /\ exists m, net m = Raise e
       end.
Proof.
  induction n as [|n IH]; intros attempt log Hsum; cbn [seq];
    destruct (attempt_shape net url attempt log)
      as [ext [Hlog [Hgets [Hown Hend]]]];
    destruct (attempt_body net url attempt log) as [[[t|]|e] log1] eqn:E;
    simpl in Hlog, Hend; subst log1.
  - rewrite (for_range_return _ _ _ _ _ _ E). exists ext. simpl.
    destruct Hend as [Hs Hlast]. repeat split; try assumption; lia.
  - unfold max_retries in *. lia.
  - rewrite (for_range_raise _ _ _ _ _ _ E). exists ext. simpl.
    destruct Hend as [Hne [Hraised [Hs Hlast]]].
    repeat split; try assumption; lia.
  - rewrite (for_range_return _ _ _ _ _ _ E). exists ext. simpl.
    destruct Hend as [Hs Hlast]. repeat split; try assumption; lia.
  - rewrite (for_range_next _ _ _ _ _ E).
    destruct (IH (S attempt) (log ++ ext)) as [ext' H]; [lia|].
    cbn [seq] in H.
    destruct H as [Hlog' [Hgets' [Hsleeps' [Hown' [[pre Hlast'] Hend']]]]].
    destruct Hend as [_ Hs].
    exists (ext ++ ext'). rewrite Hlog', <- app_assoc.
    split; [reflexivity|]. rewrite count_gets_app, count_sleeps_app.
    split; [lia|]. split; [lia|]. split; [now apply Forall_app|].
    split; [exists (ext ++ pre); now rewrite Hlast', app_assoc|].
    exact Hend'.
  - rewrite (for_range_raise _ _ _ _ _ _ E). exists ext. simpl.
    destruct Hend as [Hne [Hraised [Hs Hlast]]].
    repeat split; try assumption; lia.
Qed.

(** How a call of [check_link_validity] ends, for any prober. *)
Lemma check_link_validity_shape net url :
  exists ext,
    snd (check_link_validity net url []) = ext
    /\ count_gets ext <= 2 * max_retries
    /\ count_sleeps ext <= max_retries - 1
    /\ Forall (own_event url) ext
    /\ (not_allowlisted url ->
        exists pre, ext = EvDisableWarnings :: pre ++ [EvGet url])
    /\ match fst (check_link_validity net url []) with
       | Val (Some _) => True
       | Val None => False
       | Exc e => ~ transport_error e /\ exists m, net m = Raise e
       end.
Proof.
  unfold check_link_validity.
  destruct (existsb _ excluded_keywords) eqn:Ek.
  - exists []. simpl. split; [reflexivity|].
    split; [cbv; lia|]. split; [cbv; lia|]. split; [constructor|].
    split; [|exact I].
    intros H. now rewrite (allowlist_test_false url H) in Ek.
  - unfold bind, urllib3_disable_warnings. cbn [app].
    destruct (loop_shape net url 4 0 [EvDisableWarnings] eq_refl)
      as [ext [Hlog [Hgets [Hsleeps [Hown [[pre Hlast] Hend]]]]]].
    exists (EvDisableWarnings :: ext). cbn [app] in Hlog.
    split; [exact Hlog|].
    split; [exact Hgets|]. split; [exact Hsleeps|].
    split; [constructor; [now left|exact Hown]|].
    split; [intros _; exists pre; now rewrite Hlast|exact Hend].
Qed.

(** X1.  Whatever the prober does, [check_link_validity] never returns
    [None]: it returns a tuple, or it lets through an exception that the
    prober raised and that is not a [RequestException]. *)
Theorem check_link_validity_tuple_or_foreign_exception net url :
  (exists t log, check_link_validity net url [] = (Val (Some t), log))
  \/ (exists e log,
        check_link_validity net url [] = (Exc e, log)
        /\ ~ transport_error e /\ exists n, net n = Raise e).
Proof.
  destruct (check_link_validity_shape net url) as [ext [Hlog [_ [_ [_ [_ H]]]]]].
  destruct (check_link_validity net url []) as [[[t|]|e] log].
  - left. now exists t, log.
  - contradiction.
  - right. exists e, log. now split.
Qed.

(** X2.  Whatever the prober does, one call of [check_link_validity] makes
    at most ten calls of [requests.get], all of them for the URL it was
    given, and sleeps at most four times, one second each. *)
Theorem check_link_validity_network_budget net url :
  let log := snd (check_link_validity net url []) in
  count_gets log <= 10
  /\ count_sleeps log <= 4
  /\ Forall (own_event url) log.
Proof.
  destruct (check_link_validity_shape net url)
    as [ext [Hlog [Hgets [Hsleeps [Hown _]]]]].
  simpl. rewrite Hlog. now repeat split.
Qed.

(** X3.  For a URL without an allowlisted keyword the log of a call starts
    with the disabling of the warnings and ends with a probe: the function
    never sleeps before it returns or raises. *)
Theorem check_link_validity_never_sleeps_last net url :
  not_allowlisted url ->
  exists middle,
    snd (check_link_validity net url []) =
    EvDisableWarnings :: middle ++ [EvGet url].
Proof.
  intros Hurl.
  destruct (check_link_validity_shape net url) as [ext [Hlog [_ [_ [_ [H _]]]]]].
  destruct (H Hurl) as [pre Hpre]. exists pre. now rewrite Hlog.
Qed.

Lemma check_link_validity_never_sleeps_last_witness :
  exists middle,
    snd (check_link_validity (fun _ => Raise Timeout) "http://example.org/a" [])
    = EvDisableWarnings :: middle ++ [EvGet "http://example.org/a"].
Proof.
  apply (check_link_validity_never_sleeps_last
           (fun _ => Raise Timeout) "http://example.org/a").
  apply not_allowlisted_by_test. reflexivity.
Defined.

(** An attempt whose probe raises an exception outside [requests]. *)
Lemma attempt_foreign net url attempt log e :
  net (count_gets log) = Raise e -> ~ transport_error e ->
  attempt_body net url attempt log = (Exc e, log ++ [EvGet url]).
Proof.
  intros H Hf. destruct (foreign_not_caught e Hf) as [Ht [Hs [Hc Hto]]].
  unfold attempt_body, try_except, bind, requests_get.
  now rewrite H, Hs, Hc, Hto, Ht.
Qed.

Lemma attempt_tls_foreign net url attempt log e0 e :
  net (count_gets log) = Raise e0 -> tls_error e0 ->
  net (S (count_gets log)) = Raise e -> ~ transport_error e ->
  attempt_body net url attempt log = (Exc e, log ++ [EvGet url; EvGet url]).
Proof.
  intros H Hs H' Hf. destruct (foreign_not_caught e Hf) as [Ht _].
  unfold attempt_body, try_except, bind, requests_get.
  rewrite H, Hs, count_gets_app. simpl count_gets.
  rewrite Nat.add_1_r, H', Ht, <- app_assoc. reflexivity.
Qed.

(** X4.  An exception of the prober that is not a [RequestException] is
    not retried: after any failed attempts [fs] (fewer than five), when the
    next probe raises such an exception [e], or raises a TLS-class error
    and the second probe raises [e], the call ends at once by raising [e],
    without a sleep after that probe. *)
Theorem foreign_exception_is_not_retried net url fs e :
  not_allowlisted url ->
  Forall failure_ok fs ->
  length fs < max_retries ->
  ~ transport_error e ->
  (answers net 0 (flat_map failure_calls fs ++ [Raise e]) ->
   check_link_validity net url [] =
   (Exc e, EvDisableWarnings :: retried_log url fs ++ [EvGet url]))
  /\ (forall e0,
        tls_error e0 ->
        answers net 0 (flat_map failure_calls fs ++ [Raise e0; Raise e]) ->
        check_link_validity net url [] =
        (Exc e,
         EvDisableWarnings :: retried_log url fs ++ [EvGet url; EvGet url])).
Proof.
  intros Hurl Hfs Hlen He.
  assert (Hlen' : length fs <= max_retries - 1)
    by (unfold max_retries in *; lia).
  assert (Hrest : exists n, max_retries - length fs = S n).
  { exists (max_retries - length fs - 1). unfold max_retries in *. lia. }
  destruct Hrest as [n Hn].
  assert (Hcount : count_gets ([EvDisableWarnings] ++ retried_log url fs)
                   = 0 + length (flat_map failure_calls fs)).
  { now rewrite count_gets_app, count_gets_retried. }
  split.
  - intros Hans. apply answers_app in Hans. destruct Hans as [Hcalls Hlast].
    rewrite check_link_validity_probes by exact Hurl. cbn [app].
    rewrite (failures_then net url fs [EvDisableWarnings] Hfs Hlen' Hcalls).
    rewrite Hn. cbn [seq].
    change (EvDisableWarnings :: retried_log url fs ++ [EvGet url])
      with (([EvDisableWarnings] ++ retried_log url fs) ++ [EvGet url]).
    apply for_range_raise, attempt_foreign; [|exact He].
    rewrite Hcount. now apply answers_head in Hlast.
  - intros e0 He0 Hans. apply answers_app in Hans.
    destruct Hans as [Hcalls Hlast].
    rewrite check_link_validity_probes by exact Hurl. cbn [app].
    rewrite (failures_then net url fs [EvDisableWarnings] Hfs Hlen' Hcalls).
    rewrite Hn. cbn [seq].
    change (EvDisableWarnings :: retried_log url fs ++ [EvGet url; EvGet url])
      with (([EvDisableWarnings] ++ retried_log url fs)
            ++ [EvGet url; EvGet url]).
    apply for_range_raise, attempt_tls_foreign with (e0 := e0);
      try assumption; rewrite Hcount.
    + now apply answers_head in Hlast.
    + now apply answers_tail, answers_head in Hlast.
Qed.

Lemma foreign_exception_is_not_retried_witness :
  check_link_validity
    (fun n => if (n <? 1)%nat then Raise ReadTimeout else Raise OtherError)
    "http://example.org/a" [] =
  (Exc OtherError,
   [EvDisableWarnings; EvGet "http://example.org/a"; EvSleep 1;
    EvGet "http://example.org/a"]).
Proof.
  destruct (foreign_exception_is_not_retried
              (fun n => if (n <? 1)%nat then Raise ReadTimeout
                        else Raise OtherError)
              "http://example.org/a" [PlainFailure ReadTimeout] OtherError)
    as [H _].
  - apply not_allowlisted_by_test. reflexivity.
  - apply Forall_cons; [split; reflexivity|apply Forall_nil].
  - simpl. unfold max_retries. lia.
  - unfold transport_error. discriminate.
  - apply H. simpl.
    repeat (apply answers_cons; [reflexivity|]). apply answers_nil.
Defined.

Lemma for_range_ext {R} (body1 body2 : nat -> M (option R)) attempts :
  (forall attempt log, body1 attempt log = body2 attempt log) ->
  forall log, for_range attempts body1 log = for_range attempts body2 log.
Proof.
  intros H. induction attempts as [|a rest IH]; intros log; simpl.
  - reflexivity.
  - unfold bind. rewrite H.
    destruct (body2 a log) as [[[x|]|e] log']; [reflexivity|apply IH|reflexivity].
Qed.

Lemma attempt_same_kind net1 net2 url attempt log :
  (forall n, same_kind (net1 n) (net2 n)) ->
  attempt_body net1 url attempt log = attempt_body net2 url attempt log.
Proof.
  intros H. unfold attempt_body, try_except, bind, requests_get.
  pose proof (H (count_gets log)) as H1.
  pose proof (H (count_gets (log ++ [EvGet url]))) as H2.
  destruct (net1 (count_gets log)) as [sc1|e1],
           (net2 (count_gets log)) as [sc2|e2]; simpl in H1;
    try contradiction; [now subst|].
  destruct H1 as [<-|[Ht1 [Ht2 Hs]]].
  - destruct (isinstance e1 SSLError); [|reflexivity].
    destruct (net1 (count_gets (log ++ [EvGet url]))) as [sc1|e1'],
             (net2 (count_gets (log ++ [EvGet url]))) as [sc2|e2'];
      simpl in H2; try contradiction; [now subst|].
    destruct H2 as [<-|[Ht1' [Ht2' _]]]; [reflexivity|].
    unfold transport_error in Ht1', Ht2'. now rewrite Ht1', Ht2'.
  - unfold transport_error in Ht1, Ht2. rewrite <- Hs, Ht1, Ht2.
    destruct (isinstance e1 SSLError).
    + destruct (net1 (count_gets (log ++ [EvGet url]))) as [sc1|e1'],
               (net2 (count_gets (log ++ [EvGet url]))) as [sc2|e2'];
        simpl in H2; try contradiction; [now subst|].
      destruct H2 as [<-|[Ht1' [Ht2' _]]]; [reflexivity|].
      unfold transport_error in Ht1', Ht2'. now rewrite Ht1', Ht2'.
    + now destruct (isinstance e1 ConnectionError || isinstance e1 Timeout),
                   (isinstance e2 ConnectionError || isinstance e2 Timeout).
Qed.

(** X5.  The result of [check_link_validity] and what it does on the
    network depend on a transport error only through its being of the TLS
    class or not: two probers that give the same status codes and the same
    foreign exceptions, and transport errors of the same kind at the same
    calls, give the same result and the same log.  So the handlers for
    [ConnectionError], [Timeout] and [RequestException] are one behaviour. *)
Theorem same_kind_of_errors_same_run net1 net2 url :
  (forall n, same_kind (net1 n) (net2 n)) ->
  check_link_validity net1 url [] = check_link_validity net2 url [].
Proof.
  intros H. unfold check_link_validity.
  destruct (existsb _ excluded_keywords); [reflexivity|].
  unfold bind, urllib3_disable_warnings.
  apply for_range_ext. intros attempt log. now apply attempt_same_kind.
Qed.

Lemma same_kind_of_errors_same_run_witness :
  check_link_validity (fun _ => Raise ConnectTimeout) "http://example.org/a" []
  = check_link_validity (fun _ => Raise TooManyRedirects)
      "http://example.org/a" [].
Proof.
  apply (same_kind_of_errors_same_run
           (fun _ => Raise ConnectTimeout) (fun _ => Raise TooManyRedirects)
           "http://example.org/a").
  intros n. simpl. right. repeat split.
Defined.

(** ** More about the engine *)

Lemma collect_exact total completed : forall i st,
  Forall returned completed ->
  collect total None i completed st =
  (Val tt,
   {| valid_links :=
        valid_links st ++ map task_url (filter task_valid completed);
      invalid_links :=
        invalid_links st
        ++ map task_url (filter (fun f => negb (task_valid f)) completed);
      actions := actions st ++ progress_lines total i completed |}).
Proof.
  induction completed as [|f rest IH]; intros i st Hall.
  - simpl. rewrite !app_nil_r. now destruct st.
  - apply Forall_cons_iff in Hall as [[status_code [is_valid Hf]] Hrest].
    assert (Hv : task_valid f = is_valid) by (unfold task_valid; now rewrite Hf).
    cbn [collect filter progress_lines]. rewrite !interrupted_none, Hf, Hv.
    destruct is_valid; rewrite IH by exact Hrest; simpl;
      rewrite <- ?app_assoc; simpl; reflexivity.
Qed.

Lemma run_exact nets sched links :
  (forall j, transport_only (nets j)) ->
  let completed := as_completed sched (submit_all nets (dispatched links)) in
  clean_bookmarks nets sched None links =
  (Val GoesOn,
   {| valid_links := map task_url (filter task_valid completed);
      invalid_links :=
        map task_url (filter (fun f => negb (task_valid f)) completed);
      actions :=
        ActTotal (length links) :: map ActSubmit (dispatched links)
        ++ progress_lines (length links) 1 completed |}).
Proof.
  intros Hnets completed. unfold clean_bookmarks.
  set (futures := submit_all nets (dispatched links)).
  set (st1 := fold_left _ futures _).
  destruct (state_after_submissions nets (dispatched links) (length links))
    as [H1 [H2 H3]]. fold futures in H1, H2, H3. fold st1 in H1, H2, H3.
  fold completed. rewrite collect_exact.
  - now rewrite H1, H2, H3.
  - apply as_completed_forall. now apply submit_all_returned.
Qed.

(** X6.  When the prober only fails with transport errors and the run is
    not interrupted, the report is exactly the completed tasks in their
    order of completion: [valid_links] holds the links of the tasks with a
    valid result, [invalid_links] those of the others, and the output is the
    total, the submissions, and for each completed task its progress line
    followed, when it is invalid, by its invalid-link line. *)
Theorem complete_run_in_completion_order nets sched links :
  (forall j, transport_only (nets j)) ->
  let completed := as_completed sched (submit_all nets (dispatched links)) in
  clean_bookmarks nets sched None links =
  (Val GoesOn,
   {| valid_links := map task_url (filter task_valid completed);
      invalid_links :=
        map task_url (filter (fun f => negb (task_valid f)) completed);
      actions :=
        ActTotal (length links) :: map ActSubmit (dispatched links)
        ++ progress_lines (length links) 1 completed |}).
Proof. exact (run_exact nets sched links). Qed.

Lemma complete_run_in_completion_order_witness :
  clean_bookmarks (fun j _ => if (j =? 0)%nat then Resp 500 else Resp 301)
    [1; 0] None ["http://example.org/a"; "http://example.org/b"] =
  (Val GoesOn,
   {| valid_links := ["http://example.org/b"];
      invalid_links := ["http://example.org/a"];
      actions :=
        [ActTotal 2; ActSubmit "http://example.org/a";
         ActSubmit "http://example.org/b";
         ActProgress 1 2 "http://example.org/b";
         ActProgress 2 2 "http://example.org/a";
         ActInvalid "http://example.org/a"] |}).
Proof.
  apply (complete_run_in_completion_order
           (fun j _ => if (j =? 0)%nat then Resp 500 else Resp 301)
           [1; 0] ["http://example.org/a"; "http://example.org/b"]).
  intros j n e H. destruct (j =? 0)%nat; discriminate.
Defined.

Lemma Permutation_filter {A} (f : A -> bool) l l' :
  Permutation l l' -> Permutation (filter f l) (filter f l').
Proof.
  induction 1 as [|x l l' _ IH|x y l|l l' l'' _ IH1 _ IH2]; simpl.
  - constructor.
  - destruct (f x); [now constructor|exact IH].
  - destruct (f x), (f y); try reflexivity. apply perm_swap.
  - now transitivity (filter f l').
Qed.

(** X7.  The report does not depend on the order of completion beyond the
    order of its entries: two uninterrupted runs over the same links and
    the same answers of the network, whose tasks complete in two orders
    that are rearrangements of each other, have the same valid links and
    the same invalid links up to rearrangement. *)
Theorem report_independent_of_completion_order nets sched sched' links :
  (forall j, transport_only (nets j)) ->
  Permutation sched sched' ->
  let st := snd (clean_bookmarks nets sched None links) in
  let st' := snd (clean_bookmarks nets sched' None links) in
  Permutation (valid_links st) (valid_links st')
  /\ Permutation (invalid_links st) (invalid_links st').
Proof.
  intros Hnets Hperm.
  rewrite (run_exact nets sched links Hnets),
          (run_exact nets sched' links Hnets). simpl.
  assert (Hc : Permutation
                 (as_completed sched (submit_all nets (dispatched links)))
                 (as_completed sched' (submit_all nets (dispatched links)))).
  { unfold as_completed. now rewrite Hperm. }
  split; apply Permutation_map, Permutation_filter, Hc.
Qed.

Lemma report_independent_of_completion_order_witness :
  let nets := fun j (_ : nat) => if (j =? 1)%nat then Resp 404 else Resp 200 in
  let links := ["http://example.org/a"; "http://example.org/b";
                "http://example.org/c"] in
  Permutation (valid_links (snd (clean_bookmarks nets [0; 1; 2] None links)))
              (valid_links (snd (clean_bookmarks nets [2; 1; 0] None links))).
Proof.
  apply (report_independent_of_completion_order
           (fun j (_ : nat) => if (j =? 1)%nat then Resp 404 else Resp 200)
           [0; 1; 2] [2; 1; 0]
           ["http://example.org/a"; "http://example.org/b";
            "http://example.org/c"]).
  - intros j n e H. destruct (j =? 1)%nat; discriminate.
  - apply (Permutation_rev [0; 1; 2]).
Defined.

Lemma submit_all_in nets links f :
  In f (submit_all nets links) ->
  exists j link, In link links /\ f = submit nets j link.
Proof.
  unfold submit_all. intros H. apply in_map_iff in H.
  destruct H as [[j link] [<- Hin]]. exists j, link. split; [|reflexivity].
  now apply in_combine_r in Hin.
Qed.

(** Every entry of the two lists was put there for a completed task with
    the matching result. *)
Lemma collect_origin total intr completed u : forall i st,
  let st' := snd (collect total intr i completed st) in
  (In u (valid_links st') ->
   In u (valid_links st)
   \/ exists f s, In f completed /\ task_result f = Val (Some (u, s, true)))
  /\ (In u (invalid_links st') ->
      In u (invalid_links st)
      \/ exists f s, In f completed /\ task_result f = Val (Some (u, s, false))).
Proof.
  induction completed as [|f rest IH]; intros i st; cbn [collect].
  - simpl. split; intros H; now left.
  - assert (Hstay : forall st0 : state,
      valid_links st0 = valid_links st ->
      invalid_links st0 = invalid_links st ->
      (In u (valid_links st0) ->
       In u (valid_links st)
       \/ exists f0 s, In f0 (f :: rest)
                       /\ task_result f0 = Val (Some (u, s, true)))
      /\ (In u (invalid_links st0) ->
          In u (invalid_links st)
          \/ exists f0 s, In f0 (f :: rest)
                          /\ task_result f0 = Val (Some (u, s, false)))).
    { intros st0 -> ->. split; intros H; now left. }
    destruct (interrupted intr i AtResult); [now apply Hstay|].
    destruct (task_result f) as [[[[u0 s0] v0]|]|e] eqn:Ef;
      try (now apply Hstay).
    destruct (interrupted intr i AtPrint); [now apply Hstay|].
    destruct (interrupted intr i AtAppend); [now apply Hstay|].
    destruct v0.
    + destruct (IH (S i) (append_valid u0 (emit (ActProgress i total u0) st)))
        as [IHv IHi]. simpl in IHv, IHi. split.
      * intros H. destruct (IHv H) as [H'|[f0 [s [Hin Hres]]]].
        -- apply in_app_or in H'. destruct H' as [H'|[<-|[]]]; [now left|].
           right. exists f, s0. split; [now left|exact Ef].
        -- right. exists f0, s. split; [now right|exact Hres].
      * intros H. destruct (IHi H) as [H'|[f0 [s [Hin Hres]]]]; [now left|].
        right. exists f0, s. split; [now right|exact Hres].
    + assert (Hlast : forall st0 : state,
        valid_links st0 = valid_links st ->
        invalid_links st0 = invalid_links st ++ [u0] ->
        (In u (valid_links st0) ->
         In u (valid_links st)
         \/ exists f0 s, In f0 (f :: rest)
                         /\ task_result f0 = Val (Some (u, s, true)))
        /\ (In u (invalid_links st0) ->
            In u (invalid_links st)
            \/ exists f0 s, In f0 (f :: rest)
                            /\ task_result f0 = Val (Some (u, s, false)))).
      { intros st0 -> ->. split; intros H; [now left|].
        apply in_app_or in H. destruct H as [H|[<-|[]]]; [now left|].
        right. exists f, s0. split; [now left|exact Ef]. }
      destruct (interrupted intr i AtPrintInvalid); [now apply Hlast|].
      destruct (IH (S i) (emit (ActInvalid u0)
                            (append_invalid u0
                               (emit (ActProgress i total u0) st))))
        as [IHv IHi]. simpl in IHv, IHi. split.
      * intros H. destruct (IHv H) as [H'|[f0 [s [Hin Hres]]]]; [now left|].
        right. exists f0, s. split; [now right|exact Hres].
      * intros H. destruct (IHi H) as [H'|[f0 [s [Hin Hres]]]].
        -- apply in_app_or in H'. destruct H' as [H'|[<-|[]]]; [now left|].
           right. exists f, s0. split; [now left|exact Ef].
        -- right. exists f0, s. split; [now right|exact Hres].
Qed.

Lemma run_lists nets sched intr links :
  exists st1,
    valid_links st1 = [] /\ invalid_links st1 = []
    /\ valid_links (snd (clean_bookmarks nets sched intr links)) =
       valid_links (snd (collect (length links) intr 1
                           (as_completed sched
                              (submit_all nets (dispatched links))) st1))
    /\ invalid_links (snd (clean_bookmarks nets sched intr links)) =
       invalid_links (snd (collect (length links) intr 1
                             (as_completed sched
                                (submit_all nets (dispatched links))) st1)).
Proof.
  destruct (run_of_collect nets sched links) as [st1 [Hv [Hi Hrun]]].
  exists st1. split; [exact Hv|]. split; [exact Hi|]. rewrite (Hrun intr).
  destruct (collect _ intr 1 _ st1) as [[[]|e] st]; simpl; [now split|].
  now destruct (isinstance e KeyboardInterrupt).
Qed.

(** The task behind an entry of one of the lists. *)
Lemma run_origin nets sched intr links u (is_valid : bool) :
  In u (if is_valid
        then valid_links (snd (clean_bookmarks nets sched intr links))
        else invalid_links (snd (clean_bookmarks nets sched intr links))) ->
  exists j status_code log,
    check_link_validity (nets j) u [] =
    (Val (Some (u, status_code, is_valid)), log).
Proof.
  destruct (run_lists nets sched intr links) as [st1 [Hv [Hi [Ev Ei]]]].
  rewrite Ev, Ei. intros H.
  destruct (collect_origin (length links) intr
              (as_completed sched (submit_all nets (dispatched links)))
              u 1 st1) as [Ov Oi].
  assert (Hf : exists f s,
             In f (as_completed sched (submit_all nets (dispatched links)))
             /\ task_result f = Val (Some (u, s, is_valid))).
  { destruct is_valid.
    - destruct (Ov H) as [H'|H']; [rewrite Hv in H'; contradiction|exact H'].
    - destruct (Oi H) as [H'|H']; [rewrite Hi in H'; contradiction|exact H']. }
  destruct Hf as [f [s [Hin Hres]]].
  apply as_completed_in, submit_all_in in Hin.
  destruct Hin as [j [link [_ ->]]].
  pose proof (submit_honest nets j link _ _ _ Hres) as Hu.
  rewrite submit_url in Hu. subst link.
  unfold submit in Hres.
  destruct (check_link_validity (nets j) u []) as [r log] eqn:E.
  simpl in Hres. subst r. now exists j, s, log.
Qed.



(** X9.  A link that contains an allowlisted keyword is never put in
    [invalid_links], whatever the network answers, in whatever order the
    tasks complete and whether or not the run is interrupted. *)
Theorem allowlisted_link_is_never_invalid nets sched intr links url keyword :
  In keyword excluded_keywords ->
  Str.Substring keyword url ->
  ~ In url (invalid_links (snd (clean_bookmarks nets sched intr links))).
Proof.
  intros Hin Hsub H.
  destruct (run_origin nets sched intr links url false H)
    as [j [status_code [log E]]].
  unfold check_link_validity in E.
  rewrite (allowlist_test_true url keyword Hin Hsub) in E. discriminate.
Qed.

Lemma allowlisted_link_is_never_invalid_witness :
  ~ In "http://localhost:8080/x"
       (invalid_links
          (snd (clean_bookmarks (fun _ _ => Raise ConnectionError) [0; 1]
                  (Some (2, AtAppend))
                  ["http://localhost:8080/x"; "http://example.org/b"]))).
Proof.
  apply (allowlisted_link_is_never_invalid
           (fun _ _ => Raise ConnectionError) [0; 1] (Some (2, AtAppend))
           ["http://localhost:8080/x"; "http://example.org/b"]
           "http://localhost:8080/x" "localhost").
  - simpl. tauto.
  - apply StrFacts.contains_spec. reflexivity.
Defined.

Lemma progress_lines_progress total completed : forall i,
  filter is_progress (progress_lines total i completed) =
  map (progress_line total) (combine (seq i (length completed)) completed).
Proof.
  induction completed as [|f rest IH]; intros i; simpl; [reflexivity|].
  rewrite filter_app, IH. unfold progress_line at 2. simpl.
  now destruct (task_valid f).
Qed.

Lemma progress_lines_invalid total completed : forall i,
  filter is_invalid_line (progress_lines total i completed) =
  map ActInvalid
      (map task_url (filter (fun f => negb (task_valid f)) completed)).
Proof.
  induction completed as [|f rest IH]; intros i; simpl; [reflexivity|].
  rewrite filter_app, IH. now destruct (task_valid f).
Qed.

Lemma submissions_are_no_lines (p : action -> bool) urls :
  (forall u, p (ActSubmit u) = false) ->
  filter p (map ActSubmit urls) = [].
Proof.
  intros H. induction urls as [|u urls IH]; simpl; [reflexivity|].
  now rewrite H.
Qed.

(** X10.  In an uninterrupted run under a prober that only fails with
    transport errors, the progress lines are numbered 1, 2, ... without a
    gap, one for each completed task in the order of completion, and the
    invalid-link lines are the entries of [invalid_links], each printed
    once and in the same order. *)
Theorem progress_lines_are_numbered nets sched links :
  (forall j, transport_only (nets j)) ->
  let completed := as_completed sched (submit_all nets (dispatched links)) in
  let st := snd (clean_bookmarks nets sched None links) in
  filter is_progress (actions st) =
  map (progress_line (length links))
      (combine (seq 1 (length completed)) completed)
  /\ filter is_invalid_line (actions st) = map ActInvalid (invalid_links st).
Proof.
  intros Hnets completed st. unfold st.
  rewrite (run_exact nets sched links Hnets). fold completed. simpl.
  rewrite !filter_app, !submissions_are_no_lines by reflexivity. simpl.
  split; [apply progress_lines_progress|apply progress_lines_invalid].
Qed.

Lemma progress_lines_are_numbered_witness :
  filter is_progress
    (actions (snd (clean_bookmarks
                     (fun j _ => if (j =? 0)%nat then Resp 500 else Resp 301)
                     [1; 0] None
                     ["http://example.org/a"; "http://example.org/b"]))) =
  [ActProgress 1 2 "http://example.org/b";
   ActProgress 2 2 "http://example.org/a"].
Proof.
  destruct (progress_lines_are_numbered
              (fun j _ => if (j =? 0)%nat then Resp 500 else Resp 301)
              [1; 0] ["http://example.org/a"; "http://example.org/b"])
    as [H _].
  - intros j n e H. destruct (j =? 0)%nat; discriminate.
  - exact H.
Defined.

Lemma submit_ended_well nets j link : ended_well nets (submit nets j link).
Proof.
  unfold ended_well. rewrite submit_url. unfold submit.
  destruct (check_link_validity_shape (nets j) link)
    as [ext [_ [_ [_ [_ [_ H]]]]]].
  destruct (check_link_validity (nets j) link [])
    as [[[[[u s] v]|]|e] log] eqn:E; simpl in *.
  - now destruct (check_link_validity_consistent _ _ _ _ _ E).
  - exact H.
  - destruct H as [Hf [n Hn]]. split; [exact Hf|]. now exists j, n.
Qed.

Lemma completed_ended_well nets sched links :
  Forall (ended_well nets) (as_completed sched (submit_all nets links)).
Proof.
  apply as_completed_forall, Forall_forall. intros f Hf.
  apply submit_all_in in Hf. destruct Hf as [j [link [_ ->]]].
  apply submit_ended_well.
Qed.

(** The loop raises the interrupt or what a task raised. *)
Lemma collect_raises nets total intr completed e : forall i st,
  Forall (ended_well nets) completed ->
  fst (collect total intr i completed st) = Exc e ->
  e = KeyboardInterrupt
  \/ (~ transport_error e /\ exists j n, nets j n = Raise e).
Proof.
  induction completed as [|f rest IH]; intros i st Hall; cbn [collect].
  - discriminate.
  - apply Forall_cons_iff in Hall as [Hf Hrest]. unfold ended_well in Hf.
    assert (Hki : fst (@Exc unit KeyboardInterrupt, st) = Exc e ->
                  e = KeyboardInterrupt
                  \/ (~ transport_error e /\ exists j n, nets j n = Raise e)).
    { simpl. intros H. injection H as <-. now left. }
    destruct (interrupted intr i AtResult); [exact Hki|].
    destruct (task_result f) as [[[[u s] v]|]|e0].
    + destruct (interrupted intr i AtPrint);
        [simpl; intros H; injection H as <-; now left|].
      destruct (interrupted intr i AtAppend);
        [simpl; intros H; injection H as <-; now left|].
      destruct v; [now apply IH|].
      destruct (interrupted intr i AtPrintInvalid);
        [simpl; intros H; injection H as <-; now left|].
      now apply IH.
    + contradiction.
    + simpl. intros H. injection H as <-. now right.
Qed.

(** X11.  The exceptions that [clean_bookmarks] lets through from the
    collection of the results are only those that a call of [requests.get]
    raised in a task and that are neither a [RequestException] nor the
    interrupt; in particular unpacking a result never fails, since no task
    returns [None]. *)
Theorem only_foreign_exceptions_escape nets sched intr links e st :
  clean_bookmarks nets sched intr links = (Exc e, st) ->
  isinstance e KeyboardInterrupt = false
  /\ ~ transport_error e
  /\ exists j n, nets j n = Raise e.
Proof.
  destruct (run_of_collect nets sched links) as [st1 [_ [_ Hrun]]].
  rewrite (Hrun intr).
  pose proof (collect_raises nets (length links) intr
                (as_completed sched (submit_all nets (dispatched links)))) as Hr.
  destruct (collect (length links) intr 1 _ st1) as [[[]|e0] st0] eqn:Ec;
    [discriminate|].
  destruct (isinstance e0 KeyboardInterrupt) eqn:Ek; [discriminate|].
  intros H. injection H as <- <-.
  split; [exact Ek|].
  destruct (Hr e0 1 st1 (completed_ended_well nets sched (dispatched links)))
    as [->|H]; [now rewrite Ec|discriminate|exact H].
Qed.

Lemma only_foreign_exceptions_escape_witness :
  isinstance OtherError KeyboardInterrupt = false
  /\ ~ transport_error OtherError
  /\ exists j n, (fun (_ _ : nat) => Raise OtherError) j n = Raise OtherError.
Proof.
  apply (only_foreign_exceptions_escape
           (fun _ _ => Raise OtherError) [0] None ["http://example.org/a"]
           OtherError
           {| valid_links := []; invalid_links := [];
              actions := [ActTotal 1; ActSubmit "http://example.org/a"] |}).
  reflexivity.
Defined.

(** ** The confirmation and the rewriting *)

Lemma lower_is_y s :
  String.eqb (lower s) "y" = true <-> s = "y" \/ s = "Y".
Proof.
  rewrite String.eqb_eq. split.
  - destruct s as [|c [|c' s']]; simpl; try discriminate.
    intros H. injection H as H.
    destruct c as [[] [] [] [] [] [] [] []]; vm_compute in H;
      try discriminate; auto.
  - intros [-> | ->]; reflexivity.
Qed.


Lemma dispatched_has_no_2025 links url :
  In url (dispatched links) -> ~ Str.Substring "2025" url.
Proof. intros Hin Hsub. now apply (skipped_not_dispatched links url). Qed.

Lemma invalid_link_is_probed nets sched intr links url :
  In url (invalid_links (snd (clean_bookmarks nets sched intr links))) ->
  In url (dispatched links) /\ not_allowlisted url.
Proof.
  intros H. split.
  - now apply (run_shape nets sched intr links).
  - intros keyword Hin Hsub.
    destruct (run_origin nets sched intr links url false H)
      as [j [status_code [log E]]].
    unfold check_link_validity in E.
    rewrite (allowlist_test_true url keyword Hin Hsub) in E. discriminate.
Qed.

Section DocumentFacts.

Context {soup tag : Type}.
Variable find_all : soup -> list tag.
Variable getitem_href : soup -> tag -> res string.
Variable decompose : tag -> soup -> soup.


(** When reading a link neither fails nor depends on the removals already
    made, the loop removes exactly the tags whose link is in [invalid], in
    the order of the document. *)
Lemma remove_invalid_exact (href : tag -> string) invalid tags :
  (forall doc a_tag, getitem_href doc a_tag = Val (href a_tag)) ->
  forall doc out,
    let removed := filter (fun a_tag => mem (href a_tag) invalid) tags in
    remove_invalid getitem_href decompose invalid tags doc out =
    (Val tt, fold_left (fun d a_tag => decompose a_tag d) removed doc,
     out ++ map OutDecompose removed).
Proof.
  intros Hhref. induction tags as [|a_tag rest IH]; intros doc out; simpl.
  - now rewrite app_nil_r.
  - rewrite Hhref. destruct (mem (href a_tag) invalid); [|apply IH].
    rewrite IH. simpl. now rewrite <- app_assoc.
Qed.

Lemma hrefs_stable (href : tag -> string) doc tags :
  (forall doc a_tag, getitem_href doc a_tag = Val (href a_tag)) ->
  hrefs getitem_href doc tags = Val (map href tags).
Proof.
  intros Hhref. induction tags as [|a_tag rest IH]; simpl; [reflexivity|].
  now rewrite Hhref, IH.
Qed.

Lemma engine_output_changes_nothing (acts : list action) (o : output soup tag) :
  In o (map OutEngine acts) -> ~ touches o.
Proof.
  intros H. apply in_map_iff in H. destruct H as [a [<- _]]. now simpl.
Qed.

(** X12.  The document is changed and the output file written only with
    the consent of the user: whatever the document, the network, the order
    of completion and the interrupt, a removal or the writing of the file
    happens only when the answer to the prompt is "y" or "Y". *)
Theorem changes_need_consent nets sched intr load answer write output_file o :
  In o (snd (clean_bookmarks_file find_all getitem_href decompose
               nets sched intr load answer write output_file)) ->
  changes o ->
  exists user_input,
    answer = Val user_input /\ (user_input = "y" \/ user_input = "Y").
Proof.
  unfold clean_bookmarks_file.
  destruct (parse_bookmarks find_all getitem_href load) as [[links doc]|e];
    [|contradiction].
  destruct (clean_bookmarks nets sched intr links) as [[[]|e] st].
  - intros H Hc. now apply engine_output_changes_nothing in H; destruct o.
  - destruct (invalid_links st) as [|u rest].
    + intros H Hc. simpl in H. apply in_app_or in H. destruct H as [H|H].
      * apply engine_output_changes_nothing in H. now destruct o.
      * destruct H as [<-|[<-|[]]]; contradiction.
    + assert (Hbefore : forall o0 : output soup tag,
                In o0 (map OutEngine (actions st)
                       ++ [OutPrompt (length (u :: rest))]) ->
                ~ changes o0).
      { intros o0 H. apply in_app_or in H. destruct H as [H|[<-|[]]].
        - apply engine_output_changes_nothing in H. now destruct o0.
        - now simpl. }
      destruct answer as [user_input|e]; cbv zeta.
      * destruct (String.eqb (lower user_input) "y") eqn:Ey.
        -- intros _ _. exists user_input. split; [reflexivity|].
           now apply lower_is_y.
        -- intros H Hc. simpl in H. apply in_app_or in H.
           destruct H as [H|[<-|[<-|[]]]]; try contradiction.
           now apply Hbefore in H.
      * intros H Hc. now apply Hbefore in H.
  - intros H Hc. now apply engine_output_changes_nothing in H; destruct o.
Qed.



Lemma run_interrupted nets sched links i p :
  (forall j, transport_only (nets j)) ->
  1 <= i <= length (as_completed sched (submit_all nets (dispatched links))) ->
  p <> AtPrintInvalid ->
  exists st,
    clean_bookmarks nets sched (Some (i, p)) links =
    (Val Returned, emit ActInterrupted st).
Proof.
  intros Hnets Hi Hp.
  destruct (run_of_collect nets sched links) as [st1 [_ [_ Hrun]]].
  destruct (collect_interrupted (length links) i p
              (as_completed sched (submit_all nets (dispatched links)))
              Hp 1 st1) as [st [E _]].
  - apply as_completed_forall. now apply submit_all_returned.
  - lia.
  - exists st. now rewrite Hrun, E.
Qed.

(** X14.  A run that is interrupted during the collection of the results
    leaves the document alone: under a prober that only fails with
    transport errors, when the interrupt arrives in iteration [i] before the
    [append] of that iteration, the function returns normally right after
    the interruption message, without prompting, removing or writing
    anything. *)
Theorem interrupted_run_leaves_document_alone nets sched i p doc links
    answer write output_file :
  (forall j, transport_only (nets j)) ->
  hrefs getitem_href doc (find_all doc) = Val links ->
  1 <= i <= length (as_completed sched (submit_all nets (dispatched links))) ->
  p <> AtPrintInvalid ->
  exists out,
    clean_bookmarks_file find_all getitem_href decompose
      nets sched (Some (i, p)) (Val doc) answer write output_file =
    (Val tt, out ++ [OutEngine ActInterrupted])
    /\ forall o, In o (out ++ [OutEngine ActInterrupted]) -> ~ touches o.
Proof.
  intros Hnets Hlinks Hi Hp.
  destruct (run_interrupted nets sched links i p Hnets Hi Hp) as [st E].
  unfold clean_bookmarks_file, parse_bookmarks. rewrite Hlinks, E. simpl.
  exists (map OutEngine (actions st)). rewrite map_app. split; [reflexivity|].
  intros o H.
  change [@OutEngine soup tag ActInterrupted]
    with (map (@OutEngine soup tag) [ActInterrupted]) in H.
  rewrite <- map_app in H. now apply engine_output_changes_nothing in H.
Qed.

Lemma submit_allowlisted nets j link keyword :
  In keyword excluded_keywords -> Str.Substring keyword link ->
  task_result (submit nets j link) = Val (Some (link, Some 200%Z, true))
  /\ task_log (submit nets j link) = [].
Proof.
  intros Hin Hsub. unfold submit, check_link_validity.
  now rewrite (allowlist_test_true link keyword Hin Hsub).
Qed.

(** X15.  A document whose links all contain "2025" or an allowlisted
    keyword is left as it is, without any use of the network: whatever the
    prober would answer and in whatever order the tasks complete, no task
    calls [requests.get] or sleeps, [invalid_links] stays empty, and the
    function ends with "No invalid links found." without prompting. *)
Theorem trusted_document_is_left_alone nets sched doc links answer write
    output_file :
  hrefs getitem_href doc (find_all doc) = Val links ->
  (forall link, In link links ->
     Str.Substring "2025" link
     \/ exists keyword, In keyword excluded_keywords
                        /\ Str.Substring keyword link) ->
  exists st,
    clean_bookmarks_file find_all getitem_href decompose
      nets sched None (Val doc) answer write output_file =
    (Val tt, map OutEngine (actions st) ++ [OutNoInvalid; OutElapsed])
    /\ clean_bookmarks nets sched None links = (Val GoesOn, st)
    /\ invalid_links st = []
    /\ Forall (fun f => task_log f = [])
              (submit_all nets (dispatched links)).
Proof.
  intros Hlinks Hall.
  assert (Htrusted : forall f, In f (submit_all nets (dispatched links)) ->
            returned f /\ task_log f = []).
  { intros f Hf. apply submit_all_in in Hf. destruct Hf as [j [link [Hin ->]]].
    pose proof (dispatched_has_no_2025 links link Hin) as Hno.
    apply filter_In in Hin. destruct Hin as [Hin _].
    destruct (Hall link Hin) as [H|[keyword [Hk Hsub]]]; [contradiction|].
    destruct (submit_allowlisted nets j link keyword Hk Hsub) as [Hr Hl].
    split; [|exact Hl]. unfold returned. rewrite submit_url.
    now exists (Some 200%Z), true. }
  destruct (run_of_collect nets sched links) as [st1 [_ [_ Hrun]]].
  destruct (collect_completes (length links)
              (as_completed sched (submit_all nets (dispatched links))) 1 st1)
    as [st [E _]].
  { apply as_completed_forall, Forall_forall. intros f Hf.
    now apply Htrusted. }
  assert (Erun : clean_bookmarks nets sched None links = (Val GoesOn, st))
    by now rewrite Hrun, E.
  assert (Einv : invalid_links st = []).
  { destruct (invalid_links st) as [|u rest] eqn:Ei; [reflexivity|].
    assert (Hu : In u (invalid_links
                         (snd (clean_bookmarks nets sched None links)))).
    { rewrite Erun. simpl. rewrite Ei. now left. }
    destruct (invalid_link_is_probed nets sched None links u Hu) as [Hd Hnot].
    pose proof (dispatched_has_no_2025 links u Hd) as Hno.
    apply filter_In in Hd. destruct Hd as [Hd _].
    destruct (Hall u Hd) as [H|[keyword [Hk Hsub]]]; [contradiction|].
    now destruct (Hnot keyword Hk Hsub). }
  exists st. split; [|split; [exact Erun|split; [exact Einv|]]].
  - unfold clean_bookmarks_file, parse_bookmarks.
    now rewrite Hlinks, Erun, Einv.
  - apply Forall_forall. intros f Hf. now apply Htrusted.
Qed.

(** X16.  With the consent of the user the function removes exactly the
    tags whose link is in [invalid_links].  When reading the link of a tag
    neither fails nor depends on the removals made before, the prober only
    fails with transport errors, the run is not interrupted, some link is
    invalid, the answer is "y" or "Y" and the file can be written, the
    function prompts with the number of invalid links, removes the tags of
    the document whose link is in [invalid_links], in document order and
    every occurrence of such a link, writes the document so obtained and
    ends normally. *)
Theorem consented_run_removes_invalid_links (href : tag -> string)
    nets sched doc user_input output_file :
  (forall d a_tag, getitem_href d a_tag = Val (href a_tag)) ->
  (forall j, transport_only (nets j)) ->
  user_input = "y" \/ user_input = "Y" ->
  let st := snd (clean_bookmarks nets sched None (map href (find_all doc))) in
  let removed :=
    filter (fun a_tag => mem (href a_tag) (invalid_links st)) (find_all doc) in
  invalid_links st <> [] ->
  clean_bookmarks_file find_all getitem_href decompose
    nets sched None (Val doc) (Val user_input) (Val tt) output_file =
  (Val tt,
   map OutEngine (actions st)
   ++ [OutPrompt (length (invalid_links st))]
   ++ map OutDecompose removed
   ++ [OutWrite output_file
         (fold_left (fun d a_tag => decompose a_tag d) removed doc);
       OutSaved output_file; OutElapsed]).
Proof.
  intros Hhref Hnets Hyes st removed Hsome. subst removed.
  pose proof (run_exact nets sched (map href (find_all doc)) Hnets) as Erun.
  cbv zeta in Erun.
  assert (Est : clean_bookmarks nets sched None (map href (find_all doc))
                = (Val GoesOn, st)).
  { unfold st. now rewrite Erun. }
  unfold clean_bookmarks_file, parse_bookmarks.
  rewrite (hrefs_stable href doc (find_all doc) Hhref), Est.
  destruct (invalid_links st) as [|u rest] eqn:Einv; [contradiction|].
  rewrite <- Einv. cbv zeta.
  rewrite (proj2 (lower_is_y user_input) Hyes).
  rewrite (remove_invalid_exact href (invalid_links st) (find_all doc) Hhref).
  rewrite <- !app_assoc. reflexivity.
Qed.

End DocumentFacts.

Lemma changes_need_consent_witness :
  exists user_input,
    Val "Y" = Val user_input /\ (user_input = "y" \/ user_input = "Y").
Proof.
  apply (changes_need_consent anchors_find_all anchors_href anchors_decompose
           (fun j _ => if (j =? 0)%nat then Resp 404 else Resp 200)
           [0; 1] None
           (Val [(0, "http://example.org/a"); (1, "http://example.org/b")])
           (Val "Y") (Val tt) "cleaned.html"
           (OutSaved "cleaned.html")).
  - vm_compute. repeat (first [left; reflexivity | right]).
  - exact I.
Defined.


Lemma interrupted_run_leaves_document_alone_witness :
  exists out,
    clean_bookmarks_file anchors_find_all anchors_href anchors_decompose
      (fun _ _ => Resp 404) [0; 1] (Some (2, AtResult))
      (Val [(0, "http://example.org/a"); (1, "http://example.org/b")])
      (Val "y") (Val tt) "cleaned.html" =
    (Val tt, out ++ [OutEngine ActInterrupted]).
Proof.
  destruct (interrupted_run_leaves_document_alone
              anchors_find_all anchors_href anchors_decompose
              (fun _ _ => Resp 404) [0; 1] 2 AtResult
              [(0, "http://example.org/a"); (1, "http://example.org/b")]
              ["http://example.org/a"; "http://example.org/b"]
              (Val "y") (Val tt) "cleaned.html") as [out [E _]].
  - intros j n e H. discriminate.
  - reflexivity.
  - simpl. lia.
  - discriminate.
  - now exists out.
Defined.

Lemma trusted_document_is_left_alone_witness :
  exists st,
    clean_bookmarks_file anchors_find_all anchors_href anchors_decompose
      (fun _ _ => Raise ConnectionError) [1; 0] None
      (Val [(0, "https://github.com/a"); (1, "http://example.org/2025/b");
            (2, "http://localhost/c")])
      (Val "y") (Val tt) "cleaned.html" =
    (Val tt, map OutEngine (actions st) ++ [OutNoInvalid; OutElapsed])
    /\ invalid_links st = [].
Proof.
  destruct (trusted_document_is_left_alone
              anchors_find_all anchors_href anchors_decompose
              (fun _ _ => Raise ConnectionError) [1; 0]
              [(0, "https://github.com/a"); (1, "http://example.org/2025/b");
               (2, "http://localhost/c")]
              ["https://github.com/a"; "http://example.org/2025/b";
               "http://localhost/c"]
              (Val "y") (Val tt) "cleaned.html") as [st [E [_ [Einv _]]]].
  - reflexivity.
  - intros link [<-|[<-|[<-|[]]]].
    + right. exists "github". split; [simpl; tauto|].
      apply StrFacts.contains_spec. reflexivity.
    + left. apply StrFacts.contains_spec. reflexivity.
    + right. exists "localhost". split; [simpl; tauto|].
      apply StrFacts.contains_spec. reflexivity.
  - exists st. split; [exact E|exact Einv].
Defined.

Lemma consented_run_removes_invalid_links_witness :
  snd (clean_bookmarks_file anchors_find_all anchors_href anchors_decompose
         (fun j _ => if (j =? 1)%nat then Resp 200 else Resp 404)
         [0; 1; 2] None
         (Val [(0, "http://example.org/a"); (1, "http://example.org/a");
               (2, "http://example.org/b")])
         (Val "y") (Val tt) "cleaned.html") =
  [OutEngine (ActTotal 3);
   OutEngine (ActSubmit "http://example.org/a");
   OutEngine (ActSubmit "http://example.org/a");
   OutEngine (ActSubmit "http://example.org/b");
   OutEngine (ActProgress 1 3 "http://example.org/a");
   OutEngine (ActInvalid "http://example.org/a");
   OutEngine (ActProgress 2 3 "http://example.org/a");
   OutEngine (ActProgress 3 3 "http://example.org/b");
   OutEngine (ActInvalid "http://example.org/b");
   OutPrompt 2;
   OutDecompose (0, "http://example.org/a");
   OutDecompose (1, "http://example.org/a");
   OutDecompose (2, "http://example.org/b");
   OutWrite "cleaned.html" [];
   OutSaved "cleaned.html"; OutElapsed].
Proof.
  rewrite (consented_run_removes_invalid_links
             anchors_find_all anchors_href anchors_decompose snd
             (fun j _ => if (j =? 1)%nat then Resp 200 else Resp 404)
             [0; 1; 2]
             [(0, "http://example.org/a"); (1, "http://example.org/a");
              (2, "http://example.org/b")]
             "y" "cleaned.html").
  - reflexivity.
  - reflexivity.
  - intros j n e H. destruct (j =? 1)%nat; discriminate.
  - now left.
  - vm_compute. discriminate.
Defined.
